(** * Thumbnail renderer of the blog (src/lib/actions.ts)

    A shallow embedding of [generateThumbnail] and
    [generateThumbnailWithImage]: the word-wrap loop, the vertical layout,
    the file name derived from the title, and the two awaited I/O calls
    ([loadImage], [writeFile]) as a state-and-error monad over a file
    store.

    Modelling conventions.
    - A JavaScript string is a [string]: a sequence of code units, here
      the 8-bit ones (U+0000..U+00FF).
    - [words[0]] of an array may be [undefined]; a value of type
      [string | undefined] is an [option string], [None] being [undefined].
    - Pixel widths returned by [measureText] are rationals ([Q]); the
      layout coordinates are integers ([Z]), every division of the source
      being exact on them (lemma [block_height_even]).
    - The libraries the source calls (node-canvas, [path], [fs]) are
      parameters of the [Renderer] section; [Path] gives [path.join] as
      it is on POSIX, for the statements that depend on where a file
      lands.

    The sitemap builder (app/sitemap.ts) is embedded in [Sitemap]: the
    posts it reads, the clock and the parsing of dates are parameters. *)

From Stdlib Require Import ZArith QArith Ascii String List Lia.
From stdpp Require Import gmap strings list.
Import ListNotations.
Local Open Scope Z_scope.

(** ** JavaScript strings *)

Module JS.

(** [s.split(sep)] for a one-character separator, generalised to a
    class of separator characters: the pieces between the separators,
    empty pieces included.  The result is the first piece and the list
    of the following ones. *)
Fixpoint split_pieces (is_sep : ascii -> bool) (s : string)
  : string * list string :=
  match s with
  | EmptyString => (EmptyString, [])
  | String c s' =>
      let '(w, ws) := split_pieces is_sep s' in
      if is_sep c then (EmptyString, w :: ws) else (String c w, ws)
  end.

Definition split_by (is_sep : ascii -> bool) (s : string) : list string :=
  let '(w, ws) := split_pieces is_sep s in w :: ws.

Definition is_space (c : ascii) : bool := Ascii.eqb c " ".

(** [title.split(' ')] *)
Definition split_space (s : string) : list string := split_by is_space s.

(** The white space of ECMAScript ([\s]) among the 8-bit code units:
    TAB, LF, VT, FF, CR, SPACE and NO-BREAK SPACE. *)
Definition is_whitespace (c : ascii) : bool :=
  let n := N_of_ascii c in
  ((9 <=? n) && (n <=? 13) || (n =? 32) || (n =? 160))%N.

(** [lines.join(sep)] *)
Definition join (sep : string) (l : list string) : string :=
  String.concat sep l.

(** ToString of a [string | undefined]. *)
Definition toString (v : option string) : string :=
  match v with
  | Some s => s
  | None => "undefined"
  end.

Definition in_range (lo hi : N) (c : ascii) : bool :=
  let n := N_of_ascii c in ((lo <=? n) && (n <=? hi))%N.

(** A code unit matched by the class [[a-z0-9]] under the [i] flag:
    without the [u] flag no code unit above U+007F is canonicalised
    into the ASCII range, so these are the ASCII letters and digits. *)
Definition is_alnum (c : ascii) : bool :=
  in_range 97 122 c || in_range 65 90 c || in_range 48 57 c.

Fixpoint map_units (f : ascii -> ascii) (s : string) : string :=
  match s with
  | EmptyString => EmptyString
  | String c s' => String (f c) (map_units f s')
  end.

(** [s.replace(/[^a-z0-9]/gi, '_')] *)
Definition replace_non_alnum (s : string) : string :=
  map_units (fun c => if is_alnum c then c else "_"%char) s.

(** Lower case of one code unit of U+0000..U+00FF: A-Z, and the
    Latin-1 capitals U+00C0..U+00DE except the multiplication sign. *)
Definition lower_unit (c : ascii) : ascii :=
  let n := N_of_ascii c in
  if in_range 65 90 c || (in_range 192 222 c && negb (n =? 215)%N)
  then ascii_of_N (n + 32)
  else c.

(** [s.toLowerCase()] on a string of 8-bit code units.  The renderer
    applies it to the result of [replace_non_alnum] only, which is
    written in ASCII letters, digits and underscores. *)
Definition toLowerCase (s : string) : string := map_units lower_unit s.

End JS.

(** ** The canvas *)

Module Canvas.

(** What [ctx.fillStyle] can hold: a CSS colour, or a linear gradient
    with its end points and colour stops. *)
Inductive fill :=
| Color (css : string)
| LinearGradient (x0 y0 x1 y1 : Z) (stops : list (Z * string)).

Definition createLinearGradient (x0 y0 x1 y1 : Z) : fill :=
  LinearGradient x0 y0 x1 y1 [].

Definition addColorStop (offset : Z) (css : string) (g : fill) : fill :=
  match g with
  | Color c => Color c
  | LinearGradient x0 y0 x1 y1 stops =>
      LinearGradient x0 y0 x1 y1 (stops ++ [(offset, css)])
  end.

(** The text settings a [fillText] call reads from the context. *)
Record text_style := {
  ts_font : string;
  ts_fill : fill;
  ts_align : string;
  ts_baseline : string
}.

Section Ops.
Context {image : Type}.

(** One drawing call, with the context state it reads. *)
Inductive drawop :=
| FillRect (style : fill) (x y w h : Z)
| DrawImage (img : image) (x y w h : Z)
| FillText (text : option string) (x y : Z) (style : text_style).

Record context2d := {
  fillStyle : fill;
  font : string;
  textAlign : string;
  textBaseline : string;
  ops : list drawop
}.

Record canvas := {
  width : Z;
  height : Z;
  ctx : context2d
}.

(** [createCanvas(w, h).getContext('2d')]: the default state. *)
Definition createCanvas (w h : Z) : canvas :=
  {| width := w; height := h;
     ctx := {| fillStyle := Color "#000000"; font := "10px sans-serif";
               textAlign := "start"; textBaseline := "alphabetic";
               ops := [] |} |}.

Definition set_fillStyle (f : fill) (c : context2d) : context2d :=
  {| fillStyle := f; font := font c; textAlign := textAlign c;
     textBaseline := textBaseline c; ops := ops c |}.

Definition set_font (f : string) (c : context2d) : context2d :=
  {| fillStyle := fillStyle c; font := f; textAlign := textAlign c;
     textBaseline := textBaseline c; ops := ops c |}.

Definition set_textAlign (a : string) (c : context2d) : context2d :=
  {| fillStyle := fillStyle c; font := font c; textAlign := a;
     textBaseline := textBaseline c; ops := ops c |}.

Definition set_textBaseline (b : string) (c : context2d) : context2d :=
  {| fillStyle := fillStyle c; font := font c; textAlign := textAlign c;
     textBaseline := b; ops := ops c |}.

Definition draw (op : drawop) (c : context2d) : context2d :=
  {| fillStyle := fillStyle c; font := font c; textAlign := textAlign c;
     textBaseline := textBaseline c; ops := ops c ++ [op] |}.

Definition current_style (c : context2d) : text_style :=
  {| ts_font := font c; ts_fill := fillStyle c;
     ts_align := textAlign c; ts_baseline := textBaseline c |}.

Definition fillRect (x y w h : Z) (c : context2d) : context2d :=
  draw (FillRect (fillStyle c) x y w h) c.

Definition drawImage (img : image) (x y w h : Z) (c : context2d)
  : context2d :=
  draw (DrawImage img x y w h) c.

Definition fillText (text : option string) (x y : Z) (c : context2d)
  : context2d :=
  draw (FillText text x y (current_style c)) c.

Definition with_ctx (cv : canvas) (c : context2d) : canvas :=
  {| width := width cv; height := height cv; ctx := c |}.

(** The [fillText] calls among the drawing calls, in order. *)
Definition is_text (op : drawop) : bool :=
  match op with
  | FillText _ _ _ _ => true
  | _ => false
  end.

Definition text_ops (c : context2d) : list drawop :=
  List.filter is_text (ops c).

End Ops.

Arguments drawop : clear implicits.
Arguments context2d : clear implicits.
Arguments canvas : clear implicits.

End Canvas.

(** ** Promises over a file store *)

Module IO.

Definition buffer := list Byte.byte.

(** The I/O calls a render attempts, in order. *)
Inductive io_event :=
| EvLoadImage (path : string)
| EvWriteFile (path : string) (data : buffer).

(** The world an [async] function runs in: the files, and the log of the
    I/O calls attempted so far. *)
Record world := {
  files : gmap string buffer;
  io_log : list io_event
}.

(** A settled promise. *)
Inductive outcome (E A : Type) :=
| Resolved (a : A)
| Rejected (e : E).

Arguments Resolved {E A}.
Arguments Rejected {E A}.

(** An [async] computation: it settles, and leaves a world. *)
Definition io (E A : Type) := world -> outcome E A * world.

Definition ret {E A} (a : A) : io E A := fun w => (Resolved a, w).

(** [await]: a rejection of the awaited promise is the rejection of the
    whole function, the rest of its body is not run. *)
Definition bind {E A B} (m : io E A) (k : A -> io E B) : io E B :=
  fun w =>
    match m w with
    | (Resolved a, w') => k a w'
    | (Rejected e, w') => (Rejected e, w')
    end.

Definition record (ev : io_event) (w : world) : world :=
  {| files := files w; io_log := io_log w ++ [ev] |}.

Definition store (path : string) (data : buffer) (w : world) : world :=
  {| files := <[path := data]> (files w); io_log := io_log w |}.

End IO.

Notation "x <- m ;; k" := (IO.bind m (fun x => k))
  (at level 100, m at next level, right associativity).

(** ** The sitemap (app/sitemap.ts) *)

Module Sitemap.

(** The two values of [changeFrequency] the sitemap uses. *)
Inductive frequency := Daily | Weekly.

Section Posts.
Context {date : Type}.

(** The fields of a post of [#site/content] that [sitemap] reads. *)
Record post := {
  slug : string;
  post_date : string;
  published : bool
}.

Record entry := {
  url : string;
  lastModified : date;
  changeFrequency : frequency;
  priority : Q
}.

(** [new Date(post.date)], and the two readings of the clock
    ([new Date()]) made for the static routes, in order. *)
Variable parse_date : string -> date.
Variable now_home now_blog : date.

(** The entry of one post (the body of the [map]). *)
Definition post_entry (p : post) : entry :=
  {| url := "https://hamidul-islam.vercel.app/blog/" +:+ slug p;
     lastModified := parse_date (post_date p);
     changeFrequency := Weekly;
     priority := 7 # 10 |}.

(** "Create blog post URLs" *)
Definition blogUrls (posts : list post) : list entry :=
  List.map post_entry (List.filter published posts).

(** "Define static routes" *)
Definition routes : list entry :=
  [ {| url := "https://hamidul-islam.vercel.app";
       lastModified := now_home;
       changeFrequency := Daily;
       priority := 1 |};
    {| url := "https://hamidul-islam.vercel.app/blog";
       lastModified := now_blog;
       changeFrequency := Daily;
       priority := 8 # 10 |} ].

(** [return [...routes, ...blogUrls]] *)
Definition sitemap (posts : list post) : list entry :=
  routes ++ blogUrls posts.

End Posts.

Arguments post : clear implicits.
Arguments entry : clear implicits.

(** Three posts, the second one a draft; dates are kept as written. *)
Definition demo_posts : list post :=
  [ {| slug := "multi-tenancy-in-nextjs"; post_date := "2025-01-12";
       published := true |};
    {| slug := "draft-notes"; post_date := "2025-02-01";
       published := false |};
    {| slug := "algorithm-techniques-guide"; post_date := "2025-02-09";
       published := true |} ].

End Sitemap.

(** ** [path.join] on POSIX *)

Module Path.

Definition is_slash (c : ascii) : bool := Ascii.eqb c "/".

(** The last code unit of the path is a slash. *)
Fixpoint ends_with_slash (s : string) : bool :=
  match s with
  | EmptyString => false
  | String c EmptyString => is_slash c
  | String _ s' => ends_with_slash s'
  end.

Definition starts_with_slash (s : string) : bool :=
  match s with
  | String c _ => is_slash c
  | EmptyString => false
  end.

(** [normalizeString]: the segments of the path are read from the left
    onto a stack ([res], last kept segment first).  An empty segment
    and [.] are skipped; [..] removes the last kept segment, unless
    there is none or it is [..] itself: then [..] is kept when the path
    is relative ([allowAboveRoot]) and skipped when it is absolute. *)
Fixpoint normalize_segments (allowAboveRoot : bool) (segs res : list string)
  : list string :=
  match segs with
  | [] => rev res
  | seg :: rest =>
      if String.eqb seg "" || String.eqb seg "." then
        normalize_segments allowAboveRoot rest res
      else if String.eqb seg ".." then
        match res with
        | top :: res' =>
            if String.eqb top ".." then
              normalize_segments allowAboveRoot rest (seg :: res)
            else normalize_segments allowAboveRoot rest res'
        | [] =>
            if allowAboveRoot then
              normalize_segments allowAboveRoot rest [seg]
            else normalize_segments allowAboveRoot rest []
        end
      else normalize_segments allowAboveRoot rest (seg :: res)
  end.

(** [path.posix.normalize] *)
Definition normalize (path : string) : string :=
  if String.eqb path "" then "." else
  let isAbsolute := starts_with_slash path in
  let trailingSeparator := ends_with_slash path in
  let p := String.concat "/"
             (normalize_segments (negb isAbsolute)
                (JS.split_by is_slash path) []) in
  if String.eqb p "" then
    if isAbsolute then "/" else if trailingSeparator then "./" else "."
  else
    let p := if trailingSeparator then p +:+ "/" else p in
    if isAbsolute then "/" +:+ p else p.

(** [path.posix.join]: the non-empty arguments joined by slashes and
    normalized; [.] when there is none. *)
Definition join (args : list string) : string :=
  match List.filter (fun a => negb (String.eqb a "")) args with
  | [] => "."
  | parts => normalize (String.concat "/" parts)
  end.

End Path.

(** ** A concrete environment

    A fixed-pitch font of 20 pixels a character, a toy PNG encoder and
    decoder, a file system in which only [/app/public/thumbnails/] can be
    written, and [path.join] without normalisation.  The general
    statements below are instantiated on it. *)

Module Demo.
Import Canvas IO.

Definition fixed_pitch (font text : string) : Q :=
  inject_Z (20 * Z.of_nat (String.length text)).

(** One byte for every drawing call. *)
Definition encode (cv : canvas buffer) : buffer :=
  List.map (fun op => match op with
                      | FillRect _ _ _ _ _ => Byte.x01
                      | DrawImage _ _ _ _ _ => Byte.x02
                      | FillText _ _ _ _ => Byte.x03
                      end) (ops (ctx cv)).

Definition decode (data : buffer) : outcome string buffer :=
  match data with
  | [] => Rejected "Unsupported image type"
  | _ => Resolved data
  end.

Definition enoent (path : string) : string := "ENOENT " +:+ path.

Definition thumbnails_only (fs : gmap string buffer) (path : string)
  (data : buffer) : option string :=
  if String.prefix "/app/public/thumbnails/" path then None
  else Some ("EACCES " +:+ path).

Definition join_slash (parts : list string) : string :=
  String.concat "/" parts.

(** A file system in which every write succeeds. *)
Definition any_write (fs : gmap string buffer) (path : string)
  (data : buffer) : option string := None.

Definition asset : buffer := [Byte.x89; Byte.x50; Byte.x4e; Byte.x47].

(** The gradient image is there, nothing was logged yet. *)
Definition world_with_asset : world :=
  {| files := {[ "/app/public/gradient-bg.png" := asset ]}; io_log := [] |}.

(** No gradient image. *)
Definition empty_world : world := {| files := ∅; io_log := [] |}.

(** A title with a TAB between two letters. *)
Definition tabbed_title : string := String "a" (String "009" (String "b" "")).

(** A single word of 39 letters: 780 pixels in the fixed-pitch font. *)
Definition long_word : string := "abcdefghijklmnopqrstuvwxyzabcdefghijklm".

End Demo.

(** ** The renderer *)

(** [width < maxTextWidth] on numbers. *)
Definition Qltb (x y : Q) : bool := negb (Qle_bool y x).

Definition canvasWidth : Z := 800.
Definition canvasHeight : Z := 400.
Definition padding : Z := 20.
Definition lineHeight : Z := 50.
Definition maxTextWidth : Z := canvasWidth - padding * 2.

Section Renderer.
Import JS Canvas IO.

Context {image error : Type}.

(** node-canvas: the advance width of a text in a font
    ([ctx.measureText(text).width] reads [ctx.font]), the PNG encoding of
    a canvas, and the decoding of an image file. *)
Variable measureText : string -> string -> Q.
Variable toBuffer : canvas image -> buffer.
Variable decodeImage : buffer -> outcome error image.

(** fs: the error of opening a file that does not exist, and the error,
    if any, of a write (missing directory, permissions, full disk ...). *)
Variable missing_file : string -> error.
Variable write_error : gmap string buffer -> string -> buffer -> option error.

(** [process.cwd()] and [path.join]. *)
Variable cwd : string.
Variable path_join : list string -> string.

(** [await loadImage(path)] *)
Definition loadImage (path : string) : io error image :=
  fun w =>
    let w := record (EvLoadImage path) w in
    match files w !! path with
    | None => (Rejected (missing_file path), w)
    | Some data => (decodeImage data, w)
    end.

(** [await writeFile(path, data)] *)
Definition writeFile (path : string) (data : buffer) : io error unit :=
  fun w =>
    let w := record (EvWriteFile path data) w in
    match write_error (files w) path data with
    | Some e => (Rejected e, w)
    | None => (Resolved tt, store path data w)
    end.

(** [ctx.measureText(text).width] *)
Definition measure (c : context2d image) (text : string) : Q :=
  measureText (font c) text.

(** The body of the word-wrap loop (lines 36-43 and 104-111): the state
    is [(lines, currentLine)]. *)
Definition wrap_step (c : context2d image) (maxTextWidth : Z)
  (st : list (option string) * option string) (word : string)
  : list (option string) * option string :=
  let '(lines, currentLine) := st in
  let width := measure c (toString currentLine +:+ " " +:+ word) in
  if Qltb width (inject_Z maxTextWidth)
  then (lines, Some (toString currentLine +:+ " " +:+ word))
  else (lines ++ [currentLine], Some word).

(** "Wrap text logic" (lines 31-45, and the same statements at lines
    99-113): the loop runs over [words[1]], [words[2]], ... *)
Definition wrapText (c : context2d image) (maxTextWidth : Z) (title : string)
  : list (option string) :=
  let words := split_space title in
  let lines := [] in
  let currentLine := words !! 0%nat in
  let '(lines, currentLine) :=
    fold_left (wrap_step c maxTextWidth) (drop 1 words) (lines, currentLine) in
  lines ++ [currentLine].

(** The body of the drawing loop (lines 52-55): the state is [(ctx, y)]. *)
Definition draw_line (x lineHeight : Z) (st : context2d image * Z)
  (line : option string) : context2d image * Z :=
  let '(c, y) := st in
  (fillText line x y c, y + lineHeight).

(** "Center text vertically" and "Draw each line" (lines 48-55, and the
    same statements at lines 116-123). *)
Definition drawLines (lines : list (option string)) (c : context2d image)
  : context2d image :=
  let totalTextHeight := Z.of_nat (length lines) * lineHeight in
  let y := (canvasHeight - totalTextHeight) / 2 + lineHeight / 2 in
  fst (fold_left (draw_line (canvasWidth / 2) lineHeight) lines (c, y)).

(** "Add text styling" (lines 25-28 and 93-96). *)
Definition styleText (c : context2d image) : context2d image :=
  let c := set_font "bold 40px Arial" c in
  let c := set_fillStyle (Color "#ffffff") c in
  let c := set_textAlign "center" c in
  set_textBaseline "middle" c.

(** *** generateThumbnail *)

(** Lines 15-28: the context when the title is wrapped. *)
Definition gradientCtx : context2d image :=
  let canvas := createCanvas canvasWidth canvasHeight in
  let c := ctx canvas in
  let gradient := createLinearGradient 0 0 canvasWidth canvasHeight in
  let gradient := addColorStop 0 "#588157" gradient in
  let gradient := addColorStop 1 "#344e41" gradient in
  let c := set_fillStyle gradient c in
  let c := fillRect 10 10 (canvasWidth - 20) (canvasHeight - 20) c in
  styleText c.

(** Lines 31-45: [lines] of [generateThumbnail]. *)
Definition thumbnailLines (title : string) : list (option string) :=
  wrapText gradientCtx maxTextWidth title.

(** Lines 15-55: the canvas that is encoded. *)
Definition thumbnailCanvas (title : string) : canvas image :=
  let canvas := createCanvas canvasWidth canvasHeight in
  let c := gradientCtx in
  let lines := thumbnailLines title in
  with_ctx canvas (drawLines lines c).

Definition outputPath (title : string) : string :=
  path_join [cwd; "public"; "thumbnails"; title +:+ ".png"].

Definition generateThumbnail (title : string) : io error string :=
  let canvas := thumbnailCanvas title in
  let outputPath := outputPath title in
  let buffer := toBuffer canvas in
  _ <- writeFile outputPath buffer ;;
  ret ("/thumbnails/" +:+ title +:+ ".png").

(** *** generateThumbnailWithImage *)

Definition gradientImagePath : string :=
  path_join [cwd; "public"; "gradient-bg.png"].

(** Lines 80-96: the context when the title is wrapped. *)
Definition imageCtx (gradientImage : image) : context2d image :=
  let canvas := createCanvas canvasWidth canvasHeight in
  let c := ctx canvas in
  let c := drawImage gradientImage 0 0 canvasWidth canvasHeight c in
  styleText c.

(** Lines 99-113: [lines] of [generateThumbnailWithImage]. *)
Definition thumbnailLinesWithImage (gradientImage : image) (title : string)
  : list (option string) :=
  wrapText (imageCtx gradientImage) maxTextWidth title.

(** Lines 80-123: the canvas that is encoded. *)
Definition thumbnailCanvasWithImage (gradientImage : image) (title : string)
  : canvas image :=
  let canvas := createCanvas canvasWidth canvasHeight in
  let c := imageCtx gradientImage in
  let lines := thumbnailLinesWithImage gradientImage title in
  with_ctx canvas (drawLines lines c).

(** [title.replace(/[^a-z0-9]/gi, '_').toLowerCase()] *)
Definition sanitize (title : string) : string :=
  toLowerCase (replace_non_alnum title).

Definition outputPathWithImage (title : string) : string :=
  path_join [cwd; "public"; "thumbnails"; sanitize title +:+ ".png"].

Definition generateThumbnailWithImage (title : string) : io error string :=
  gradientImage <- loadImage gradientImagePath ;;
  let canvas := thumbnailCanvasWithImage gradientImage title in
  let outputPath := outputPathWithImage title in
  let buffer := toBuffer canvas in
  _ <- writeFile outputPath buffer ;;
  ret ("/thumbnails/" +:+ sanitize title +:+ ".png").

(** *** The layout algorithm as the specification words it *)

(** Greedy line filling: [currentLine] is the line in progress; a word
    joins it when the widened line measures below [maxw], otherwise the
    line is committed and the word starts the next one; the last line in
    progress is committed at the end. *)
Fixpoint spec_fill (measure : string -> Q) (maxw : Z) (currentLine : string)
  (words : list string) : list string :=
  match words with
  | [] => [currentLine]
  | word :: rest =>
      if Qltb (measure (currentLine +:+ " " +:+ word)) (inject_Z maxw)
      then spec_fill measure maxw (currentLine +:+ " " +:+ word) rest
      else currentLine :: spec_fill measure maxw word rest
  end.

(** The reference algorithm: the title is split into words at the
    characters of [is_sep], the first word starts the first line. *)
Definition spec_greedy_lines (is_sep : ascii -> bool) (measure : string -> Q)
  (maxw : Z) (title : string) : list string :=
  match split_by is_sep title with
  | [] => []
  | first :: rest => spec_fill measure maxw first rest
  end.

(** The position and style the specification gives line [i] of [n]. *)
Definition spec_text_style : text_style :=
  {| ts_font := "bold 40px Arial"; ts_fill := Color "#ffffff";
     ts_align := "center"; ts_baseline := "middle" |}.

Definition spec_line_y (n i : nat) : Z :=
  (400 - Z.of_nat n * 50) / 2 + 50 / 2 + Z.of_nat i * 50.

Definition spec_draw_calls (lines : list (option string)) : list (drawop image) :=
  imap (fun i line => FillText line (800 / 2) (spec_line_y (length lines) i)
                        spec_text_style) lines.

(** The vertical positions of the [fillText] calls of a context, in
    the order of the calls. *)
Definition line_ys (c : context2d image) : list Z :=
  omap (fun op => match op with
                  | FillText _ _ y _ => Some y
                  | _ => None
                  end) (ops c).

(** ** Facts about the string primitives *)

Lemma Qltb_lt (x y : Q) : Qltb x y = true <-> (x < y)%Q.
Proof.
  unfold Qltb. rewrite negb_true_iff, <- not_true_iff_false, Qle_bool_iff.
  split; [apply Qnot_le_lt | apply Qlt_not_le].
Qed.

Lemma concat_cons_cons (sep x y : string) (l : list string) :
  String.concat sep (x :: y :: l) = x +:+ sep +:+ String.concat sep (y :: l).
Proof. reflexivity. Qed.

Lemma concat_String (sep : string) (c : ascii) (w : string) (ws : list string) :
  String.concat sep (String c w :: ws) = String c (String.concat sep (w :: ws)).
Proof. destruct ws; reflexivity. Qed.

Lemma append_String (x : ascii) (a b : string) :
  String x a +:+ b = String x (a +:+ b).
Proof. reflexivity. Qed.

Lemma string_app_assoc (a b c : string) : (a +:+ b) +:+ c = a +:+ b +:+ c.
Proof.
  induction a as [|x a IH]; [reflexivity|].
  rewrite !append_String, IH. reflexivity.
Qed.

(** [split] never returns the empty array: [words[0]] is a string. *)
Lemma split_by_cons (is_sep : ascii -> bool) (s : string) :
  split_by is_sep s = fst (split_pieces is_sep s) :: snd (split_pieces is_sep s).
Proof. unfold split_by. now destruct (split_pieces is_sep s). Qed.

(** Splitting at the spaces and joining with a space is the identity. *)
Lemma join_split_space (s : string) : join " " (split_space s) = s.
Proof.
  unfold join, split_space, split_by.
  induction s as [|c s IH]; simpl; [reflexivity|].
  destruct (split_pieces is_space s) as [w ws].
  destruct (is_space c) eqn:Hc.
  - apply Ascii.eqb_eq in Hc. subst c.
    rewrite concat_cons_cons, IH. reflexivity.
  - rewrite concat_String, IH. reflexivity.
Qed.

(** ** The word-wrap loop *)

Lemma spec_fill_nonempty (m : string -> Q) (maxw : Z) (cur : string)
  (ws : list string) : spec_fill m maxw cur ws <> [].
Proof.
  revert cur. induction ws as [|w ws IH]; intros cur; simpl; [discriminate|].
  destruct (Qltb _ _); [apply IH | discriminate].
Qed.

(** The loop, started on a defined [currentLine], commits the lines of
    [spec_fill] after the ones already committed. *)
Lemma wrap_loop_spec_fill (c : context2d image) (maxw : Z) (ws : list string) :
  forall (ls : list (option string)) (cur : string),
    (let '(lines, currentLine) :=
       fold_left (wrap_step c maxw) ws (ls, Some cur) in
     lines ++ [currentLine])
    = ls ++ (Some <$> spec_fill (measure c) maxw cur ws).
Proof.
  induction ws as [|w ws IH]; intros ls cur; [reflexivity|].
  cbn [fold_left spec_fill wrap_step toString].
  destruct (Qltb (measure c (cur +:+ " " +:+ w)) (inject_Z maxw)).
  - apply IH.
  - rewrite IH, <- app_assoc. reflexivity.
Qed.

Lemma wrapText_spec (c : context2d image) (maxw : Z) (title : string) :
  wrapText c maxw title
  = Some <$> spec_greedy_lines is_space (measure c) maxw title.
Proof.
  unfold wrapText, spec_greedy_lines, split_space.
  rewrite split_by_cons. cbn [lookup list_lookup drop].
  apply (wrap_loop_spec_fill c maxw _ []).
Qed.

(** Joining the lines of [spec_fill] gives back the words, in order. *)
Lemma join_spec_fill (m : string -> Q) (maxw : Z) (ws : list string) :
  forall cur, join " " (spec_fill m maxw cur ws) = join " " (cur :: ws).
Proof.
  unfold join.
  induction ws as [|w ws IH]; intros cur; [reflexivity|].
  cbn [spec_fill]. destruct (Qltb _ _).
  - rewrite IH, concat_cons_cons.
    destruct ws as [|w' ws]; [reflexivity|].
    rewrite !concat_cons_cons, !string_app_assoc. reflexivity.
  - pose proof (spec_fill_nonempty m maxw w ws) as Hne.
    rewrite concat_cons_cons, <- IH.
    destruct (spec_fill m maxw w ws); [contradiction | reflexivity].
Qed.

(** A line of [spec_fill] is the starting line, a word on its own, or a
    line that was widened and measured below the maximum. *)
Lemma spec_fill_fits (m : string -> Q) (maxw : Z) (ws : list string) :
  forall cur,
    Forall (fun line => In line (cur :: ws) \/ (m line < inject_Z maxw)%Q)
           (spec_fill m maxw cur ws).
Proof.
  induction ws as [|w ws IH]; intros cur; cbn [spec_fill].
  - constructor; [left; left; reflexivity | constructor].
  - destruct (Qltb _ _) eqn:Hw.
    + apply Qltb_lt in Hw.
      eapply Forall_impl; [apply IH|]. cbn beta.
      intros line [[<- | Hin] | Hlt]; auto.
      left. right. right. exact Hin.
    + constructor; [left; left; reflexivity|].
      eapply Forall_impl; [apply IH|]. cbn beta.
      intros line [Hin | Hlt]; auto.
      left. right. exact Hin.
Qed.

(** Both renderers measure in the font set by [styleText]. *)
Lemma measure_gradientCtx (text : string) :
  measure gradientCtx text = measureText "bold 40px Arial" text.
Proof. reflexivity. Qed.

Lemma measure_imageCtx (gradientImage : image) (text : string) :
  measure (imageCtx gradientImage) text = measureText "bold 40px Arial" text.
Proof. reflexivity. Qed.

(** The loop reads the context through [measureText] only. *)
Lemma wrapText_ext (c1 c2 : context2d image) (maxw : Z) (title : string) :
  font c1 = font c2 -> wrapText c1 maxw title = wrapText c2 maxw title.
Proof.
  intros Hfont. rewrite !wrapText_spec.
  unfold measure. rewrite Hfont. reflexivity.
Qed.

(** C2 (amended): for every title, the lines computed by either renderer
    are those of the reference greedy algorithm run on the pieces of the
    title between its space characters (U+0020): the first piece starts
    the first line, a following piece joins the line in progress when
    the widened line measures strictly below 760, otherwise the line is
    committed and the piece starts a new one, and the last line in
    progress is committed after the loop. *)
Theorem wrap_is_greedy_on_spaces (gradientImage : image) (title : string) :
  thumbnailLines title
  = Some <$> spec_greedy_lines is_space (measureText "bold 40px Arial")
               (800 - 2 * 20) title
  /\ thumbnailLinesWithImage gradientImage title
     = Some <$> spec_greedy_lines is_space (measureText "bold 40px Arial")
                  (800 - 2 * 20) title.
Proof.
  unfold thumbnailLines, thumbnailLinesWithImage.
  rewrite !wrapText_spec. split; reflexivity.
Qed.

(** ** The drawing loop *)

(** The only division of a variable quantity in the layout is exact:
    the free height [canvasHeight - lines.length * lineHeight] is even. *)
Lemma block_height_even (n : nat) :
  (2 | canvasHeight - Z.of_nat n * lineHeight).
Proof.
  exists (200 - 25 * Z.of_nat n). unfold canvasHeight, lineHeight. lia.
Qed.

(** The drawing loop appends one [fillText] call a line, [lh] apart, in
    the style of the context, which it leaves unchanged. *)
Lemma draw_loop_ops (x lh : Z) (lines : list (option string)) :
  forall (c : context2d image) (y : Z),
    ops (fst (fold_left (draw_line x lh) lines (c, y)))
    = ops c ++ imap (fun i line =>
                       FillText line x (y + Z.of_nat i * lh) (current_style c))
                    lines.
Proof.
  induction lines as [|line lines IH]; intros c y.
  - cbn. now rewrite app_nil_r.
  - cbn [fold_left draw_line]. rewrite IH, imap_cons.
    cbn [fillText draw ops current_style font fillStyle textAlign textBaseline].
    rewrite <- app_assoc. cbn [app]. do 2 f_equal.
    + f_equal. lia.
    + apply imap_ext. intros i l _. cbn. f_equal. lia.
Qed.

Lemma drawLines_ops (lines : list (option string)) (c : context2d image) :
  current_style c = spec_text_style ->
  ops (drawLines lines c) = ops c ++ spec_draw_calls lines.
Proof.
  intros Hstyle. unfold drawLines, spec_draw_calls.
  rewrite draw_loop_ops, Hstyle. reflexivity.
Qed.

Lemma thumbnailCanvas_ops (title : string) :
  ops (ctx (thumbnailCanvas title))
  = FillRect (LinearGradient 0 0 800 400 [(0, "#588157"); (1, "#344e41")])
             10 10 780 380
    :: spec_draw_calls (thumbnailLines title).
Proof.
  unfold thumbnailCanvas. cbn [ctx with_ctx].
  rewrite drawLines_ops; reflexivity.
Qed.

Lemma thumbnailCanvasWithImage_ops (gradientImage : image) (title : string) :
  ops (ctx (thumbnailCanvasWithImage gradientImage title))
  = DrawImage gradientImage 0 0 800 400
    :: spec_draw_calls (thumbnailLinesWithImage gradientImage title).
Proof.
  unfold thumbnailCanvasWithImage. cbn [ctx with_ctx].
  rewrite drawLines_ops; reflexivity.
Qed.

Lemma filter_imap_all {A B : Type} (P : B -> bool) (l : list A) :
  forall f : nat -> A -> B,
    (forall i x, P (f i x) = true) -> List.filter P (imap f l) = imap f l.
Proof.
  induction l as [|a l IH]; intros f HP; [reflexivity|].
  rewrite imap_cons. cbn [List.filter]. rewrite HP. f_equal.
  apply IH. intros i x. apply HP.
Qed.

Lemma text_ops_spec_draw_calls (lines : list (option string)) :
  List.filter is_text (spec_draw_calls lines) = spec_draw_calls lines.
Proof. apply filter_imap_all. reflexivity. Qed.

(** C7: for every title, with [n] computed lines, the [fillText] calls
    of either renderer are, in the order of the lines, line [i] at
    [x = 800/2 = 400] and [y = (400 - n*50)/2 + 50/2 + i*50], in the
    bold 40px font and filled white. *)
Theorem lines_drawn_centered (gradientImage : image) (title : string) :
  text_ops (ctx (thumbnailCanvas title))
  = imap (fun i line =>
            FillText line 400
              ((400 - Z.of_nat (length (thumbnailLines title)) * 50) / 2
               + 50 / 2 + Z.of_nat i * 50)
              {| ts_font := "bold 40px Arial"; ts_fill := Color "#ffffff";
                 ts_align := "center"; ts_baseline := "middle" |})
         (thumbnailLines title)
  /\ text_ops (ctx (thumbnailCanvasWithImage gradientImage title))
     = imap (fun i line =>
               FillText line 400
                 ((400 - Z.of_nat (length (thumbnailLinesWithImage
                                             gradientImage title)) * 50) / 2
                  + 50 / 2 + Z.of_nat i * 50)
                 {| ts_font := "bold 40px Arial"; ts_fill := Color "#ffffff";
                    ts_align := "center"; ts_baseline := "middle" |})
            (thumbnailLinesWithImage gradientImage title).
Proof.
  unfold text_ops.
  rewrite thumbnailCanvas_ops, thumbnailCanvasWithImage_ops.
  cbn [List.filter is_text]. rewrite !text_ops_spec_draw_calls.
  split; reflexivity.
Qed.

(** C8: for every title the two renderers compute the same sequence of
    lines and issue the same [fillText] calls; their drawing calls
    differ in the first one only, the background. *)
Theorem renderers_agree_on_layout (gradientImage : image) (title : string) :
  thumbnailLines title = thumbnailLinesWithImage gradientImage title
  /\ (exists (background1 background2 : drawop image)
             (texts : list (drawop image)),
        ops (ctx (thumbnailCanvas title)) = background1 :: texts
        /\ ops (ctx (thumbnailCanvasWithImage gradientImage title))
           = background2 :: texts
        /\ is_text background1 = false /\ is_text background2 = false
        /\ text_ops (ctx (thumbnailCanvas title)) = texts
        /\ text_ops (ctx (thumbnailCanvasWithImage gradientImage title))
           = texts).
Proof.
  assert (Hlines : thumbnailLines title
                   = thumbnailLinesWithImage gradientImage title)
    by (apply wrapText_ext; reflexivity).
  split; [exact Hlines|].
  unfold text_ops.
  rewrite thumbnailCanvas_ops, thumbnailCanvasWithImage_ops, <- Hlines.
  do 3 eexists. repeat split.
  all: cbn [List.filter is_text]; apply text_ops_spec_draw_calls.
Qed.

(** C10: for every title, every computed line is a string, and the
    lines joined by single spaces, in order, are the title. *)
Theorem lines_join_to_title (gradientImage : image) (title : string) :
  (exists lines : list string,
     thumbnailLines title = Some <$> lines /\ join " " lines = title)
  /\ (exists lines : list string,
        thumbnailLinesWithImage gradientImage title = Some <$> lines
        /\ join " " lines = title).
Proof.
  assert (Hjoin : forall m maxw,
             join " " (spec_greedy_lines is_space m maxw title) = title).
  { intros m maxw. unfold spec_greedy_lines.
    pose proof (join_split_space title) as Hs. unfold split_space in Hs.
    destruct (split_by is_space title) as [|w ws]; [exact Hs|].
    rewrite join_spec_fill. exact Hs. }
  unfold thumbnailLines, thumbnailLinesWithImage. rewrite !wrapText_spec.
  split; eexists; (split; [reflexivity | apply Hjoin]).
Qed.

(** C5 (amended): for every title, every computed line is a string that
    is either one of the words of the title (a piece between two spaces,
    however wide) or measures strictly below 760 pixels. *)
Theorem lines_fit_or_single_word (gradientImage : image) (title : string) :
  Forall (fun line => exists s, line = Some s
            /\ (In s (split_space title)
                \/ (measureText "bold 40px Arial" s < 760)%Q))
         (thumbnailLines title)
  /\ Forall (fun line => exists s, line = Some s
               /\ (In s (split_space title)
                   \/ (measureText "bold 40px Arial" s < 760)%Q))
            (thumbnailLinesWithImage gradientImage title).
Proof.
  assert (H : forall c : context2d image, font c = "bold 40px Arial" ->
            Forall (fun line => exists s, line = Some s
                      /\ (In s (split_space title)
                          \/ (measureText "bold 40px Arial" s < 760)%Q))
                   (wrapText c maxTextWidth title)).
  { intros c Hc. rewrite wrapText_spec.
    unfold spec_greedy_lines, split_space, measure. rewrite Hc.
    rewrite split_by_cons. apply Forall_fmap.
    eapply Forall_impl; [apply spec_fill_fits|].
    intros s Hs. exists s. split; [reflexivity | exact Hs]. }
  split; apply H; reflexivity.
Qed.

(** C3: the empty title splits into the one word [""], so [words[0]] is
    the empty string and not [undefined]; both renderers compute the
    single line [""] and draw, after the background, that one blank
    line at [(400, 200)]; whenever the awaited I/O succeeds the call
    resolves, and what it has then written to its output path is the
    encoding of that very canvas. *)
Theorem empty_title_renders (gradientImage : image) (w : world) :
  split_space "" !! 0%nat = Some ""
  /\ thumbnailLines "" = [Some ""]
  /\ thumbnailLinesWithImage gradientImage "" = [Some ""]
  /\ ops (ctx (thumbnailCanvas ""))
     = [FillRect (LinearGradient 0 0 800 400 [(0, "#588157"); (1, "#344e41")])
          10 10 780 380;
        FillText (Some "") 400 200 spec_text_style]
  /\ ops (ctx (thumbnailCanvasWithImage gradientImage ""))
     = [DrawImage gradientImage 0 0 800 400;
        FillText (Some "") 400 200 spec_text_style]
  /\ (write_error (files w) (outputPath "") (toBuffer (thumbnailCanvas ""))
      = None ->
      generateThumbnail "" w
      = (Resolved "/thumbnails/.png",
         store (outputPath "") (toBuffer (thumbnailCanvas ""))
           (record (EvWriteFile (outputPath "")
                      (toBuffer (thumbnailCanvas ""))) w)))
  /\ (loadImage gradientImagePath w
      = (Resolved gradientImage, record (EvLoadImage gradientImagePath) w) ->
      write_error (files w) (outputPathWithImage "")
        (toBuffer (thumbnailCanvasWithImage gradientImage "")) = None ->
      generateThumbnailWithImage "" w
      = (Resolved "/thumbnails/.png",
         store (outputPathWithImage "")
           (toBuffer (thumbnailCanvasWithImage gradientImage ""))
           (record (EvWriteFile (outputPathWithImage "")
                      (toBuffer (thumbnailCanvasWithImage gradientImage "")))
              (record (EvLoadImage gradientImagePath) w)))).
Proof.
  repeat split; try reflexivity.
  - intros Hw. unfold generateThumbnail, bind, writeFile, ret.
    cbn [files record]. rewrite Hw. reflexivity.
  - intros Hl Hw. unfold generateThumbnailWithImage, bind.
    rewrite Hl. unfold writeFile, ret. cbn [files record]. rewrite Hw.
    reflexivity.
Qed.

(** ** The awaited calls *)

(** [generateThumbnail] is its one [writeFile]: the write is attempted
    once, its error rejects the call, its success stores the PNG and
    resolves to the URL. *)
Lemma generateThumbnail_run (title : string) (w : world) :
  generateThumbnail title w
  = let out := outputPath title in
    let png := toBuffer (thumbnailCanvas title) in
    let w1 := record (EvWriteFile out png) w in
    match write_error (files w) out png with
    | Some e => (Rejected e, w1)
    | None => (Resolved ("/thumbnails/" +:+ title +:+ ".png"), store out png w1)
    end.
Proof.
  unfold generateThumbnail, bind, writeFile, ret. cbn [files record].
  destruct (write_error _ _ _); reflexivity.
Qed.

(** [generateThumbnailWithImage] once the image is loaded. *)
Lemma generateThumbnailWithImage_loaded (title : string) (w w0 : world)
  (gradientImage : image) :
  loadImage gradientImagePath w = (Resolved gradientImage, w0) ->
  generateThumbnailWithImage title w
  = let out := outputPathWithImage title in
    let png := toBuffer (thumbnailCanvasWithImage gradientImage title) in
    let w1 := record (EvWriteFile out png) (record (EvLoadImage gradientImagePath) w) in
    match write_error (files w) out png with
    | Some e => (Rejected e, w1)
    | None =>
        (Resolved ("/thumbnails/" +:+ sanitize title +:+ ".png"), store out png w1)
    end.
Proof.
  intros Hl. unfold generateThumbnailWithImage, bind. rewrite Hl.
  assert (Hw0 : w0 = record (EvLoadImage gradientImagePath) w).
  { unfold loadImage in Hl.
    destruct (files _ !! _); inversion Hl; reflexivity. }
  subst w0. unfold writeFile, ret. cbn [files record].
  destruct (write_error _ _ _); reflexivity.
Qed.

Lemma generateThumbnailWithImage_not_loaded (title : string) (w w0 : world)
  (e : error) :
  loadImage gradientImagePath w = (Rejected e, w0) ->
  generateThumbnailWithImage title w
  = (Rejected e, record (EvLoadImage gradientImagePath) w).
Proof.
  intros Hl. unfold generateThumbnailWithImage, bind. rewrite Hl.
  unfold loadImage in Hl.
  destruct (files _ !! _); inversion Hl; reflexivity.
Qed.

(** [loadImage] reads the world at its path only. *)
Lemma loadImage_outcome (path : string) (w1 w2 : world) :
  files w1 !! path = files w2 !! path ->
  fst (loadImage path w1) = fst (loadImage path w2).
Proof.
  intros H. unfold loadImage. cbn [files record]. rewrite H.
  destruct (files w2 !! path); reflexivity.
Qed.

(** The text of the URL and the argument of [path.join]: a call that
    resolves returns ["/thumbnails/" + name + ".png"] and has written
    the encoded canvas to [path.join(cwd, 'public', 'thumbnails',
    name + '.png')], [name] being the title for [generateThumbnail] and
    the sanitized title for [generateThumbnailWithImage]; the call does
    resolve whenever the awaited I/O succeeds.  Where [path.join] puts
    that file is not said here. *)
Theorem resolved_path_names_written_file (title : string) (w : world) :
  (forall url w',
      generateThumbnail title w = (Resolved url, w') ->
      url = "/thumbnails/" +:+ title +:+ ".png"
      /\ files w' !! path_join [cwd; "public"; "thumbnails"; title +:+ ".png"]
         = Some (toBuffer (thumbnailCanvas title)))
  /\ (write_error (files w) (outputPath title)
        (toBuffer (thumbnailCanvas title)) = None ->
      exists w', generateThumbnail title w
                 = (Resolved ("/thumbnails/" +:+ title +:+ ".png"), w'))
  /\ (forall url w',
         generateThumbnailWithImage title w = (Resolved url, w') ->
         exists gradientImage,
           fst (loadImage gradientImagePath w) = Resolved gradientImage
           /\ url = "/thumbnails/" +:+ sanitize title +:+ ".png"
           /\ files w' !! path_join [cwd; "public"; "thumbnails";
                                     sanitize title +:+ ".png"]
              = Some (toBuffer (thumbnailCanvasWithImage gradientImage title)))
  /\ (forall gradientImage,
         fst (loadImage gradientImagePath w) = Resolved gradientImage ->
         write_error (files w) (outputPathWithImage title)
           (toBuffer (thumbnailCanvasWithImage gradientImage title)) = None ->
         exists w', generateThumbnailWithImage title w
                    = (Resolved ("/thumbnails/" +:+ sanitize title +:+ ".png"),
                       w')).
Proof.
  split; [|split; [|split]].
  - intros url w'. rewrite generateThumbnail_run. cbv zeta.
    destruct (write_error _ _ _); intros H; inversion H; subst.
    split; [reflexivity|]. cbn [files store record].
    apply lookup_insert_eq.
  - intros Hw. rewrite generateThumbnail_run. cbv zeta. rewrite Hw.
    eexists. reflexivity.
  - intros url w'.
    destruct (loadImage gradientImagePath w) as [[img|e] w0] eqn:Hl.
    + rewrite (generateThumbnailWithImage_loaded _ _ _ _ Hl). cbv zeta.
      destruct (write_error _ _ _); intros H; inversion H; subst.
      exists img. split; [reflexivity|]. split; [reflexivity|].
      cbn [files store record]. apply lookup_insert_eq.
    + rewrite (generateThumbnailWithImage_not_loaded _ _ _ _ Hl).
      intros H; inversion H.
  - intros img Hl Hw.
    destruct (loadImage gradientImagePath w) as [o w0] eqn:Hl'.
    cbn [fst] in Hl. subst o.
    rewrite (generateThumbnailWithImage_loaded _ _ _ _ Hl'). cbv zeta.
    rewrite Hw. eexists. reflexivity.
Qed.

(** C6: a rejection of [loadImage] (missing or undecodable gradient
    image) or an error of [writeFile] rejects the call with that very
    error; the world afterwards is the one before plus the log of the
    single attempt of each call made: nothing is retried and no path is
    returned. *)
Theorem io_failure_rejects (title : string) (w : world) (e : error) :
  (write_error (files w) (outputPath title)
     (toBuffer (thumbnailCanvas title)) = Some e ->
   generateThumbnail title w
   = (Rejected e,
      record (EvWriteFile (outputPath title)
                (toBuffer (thumbnailCanvas title))) w))
  /\ (fst (loadImage gradientImagePath w) = Rejected e ->
      generateThumbnailWithImage title w
      = (Rejected e, record (EvLoadImage gradientImagePath) w))
  /\ (forall gradientImage,
         fst (loadImage gradientImagePath w) = Resolved gradientImage ->
         write_error (files w) (outputPathWithImage title)
           (toBuffer (thumbnailCanvasWithImage gradientImage title)) = Some e ->
         generateThumbnailWithImage title w
         = (Rejected e,
            record (EvWriteFile (outputPathWithImage title)
                      (toBuffer (thumbnailCanvasWithImage gradientImage title)))
              (record (EvLoadImage gradientImagePath) w))).
Proof.
  split; [|split].
  - intros Hw. rewrite generateThumbnail_run. cbv zeta. now rewrite Hw.
  - intros Hl.
    destruct (loadImage gradientImagePath w) as [o w0] eqn:Hl'.
    cbn [fst] in Hl. subst o.
    apply (generateThumbnailWithImage_not_loaded _ _ _ _ Hl').
  - intros img Hl Hw.
    destruct (loadImage gradientImagePath w) as [o w0] eqn:Hl'.
    cbn [fst] in Hl. subst o.
    rewrite (generateThumbnailWithImage_loaded _ _ _ _ Hl'). cbv zeta.
    now rewrite Hw.
Qed.

(** A write elsewhere than on the gradient image leaves it in place. *)
Lemma write_keeps_asset (path : string) (data : buffer) (w : world) :
  path <> gradientImagePath ->
  files (store path data w) !! gradientImagePath = files w !! gradientImagePath.
Proof. intros Hne. cbn [files store]. now apply lookup_insert_ne. Qed.

(** With the font metrics and the PNG encoder taken as functions, as
    they are in this model: two calls for the same title that resolve
    return the same path and leave the same bytes in the output file,
    from whatever worlds they start ([generateThumbnailWithImage]:
    worlds with the same gradient image file); when the second call
    runs in the world the first one left, its write leaves the files as
    they were. *)
Theorem render_deterministic (title : string) (w1 w2 : world) :
  (forall url1 url2 w1' w2',
      generateThumbnail title w1 = (Resolved url1, w1') ->
      generateThumbnail title w2 = (Resolved url2, w2') ->
      url1 = url2
      /\ files w1' !! outputPath title = Some (toBuffer (thumbnailCanvas title))
      /\ files w2' !! outputPath title = Some (toBuffer (thumbnailCanvas title)))
  /\ (forall url1 url2 w1' w2',
         files w1 !! gradientImagePath = files w2 !! gradientImagePath ->
         generateThumbnailWithImage title w1 = (Resolved url1, w1') ->
         generateThumbnailWithImage title w2 = (Resolved url2, w2') ->
         url1 = url2
         /\ exists png,
             files w1' !! outputPathWithImage title = Some png
             /\ files w2' !! outputPathWithImage title = Some png)
  /\ (forall url1 url2 w1' w1'',
         generateThumbnail title w1 = (Resolved url1, w1') ->
         generateThumbnail title w1' = (Resolved url2, w1'') ->
         url2 = url1 /\ files w1'' = files w1')
  /\ (forall url1 url2 w1' w1'',
         generateThumbnailWithImage title w1 = (Resolved url1, w1') ->
         files w1' !! gradientImagePath = files w1 !! gradientImagePath ->
         generateThumbnailWithImage title w1' = (Resolved url2, w1'') ->
         url2 = url1 /\ files w1'' = files w1').
Proof.
  assert (Himg : forall wa wb urla urlb wa' wb',
             files wa !! gradientImagePath = files wb !! gradientImagePath ->
             generateThumbnailWithImage title wa = (Resolved urla, wa') ->
             generateThumbnailWithImage title wb = (Resolved urlb, wb') ->
             exists img,
               urla = urlb
               /\ wa' = store (outputPathWithImage title)
                          (toBuffer (thumbnailCanvasWithImage img title))
                          (record (EvWriteFile (outputPathWithImage title)
                                     (toBuffer (thumbnailCanvasWithImage img title)))
                             (record (EvLoadImage gradientImagePath) wa))
               /\ wb' = store (outputPathWithImage title)
                          (toBuffer (thumbnailCanvasWithImage img title))
                          (record (EvWriteFile (outputPathWithImage title)
                                     (toBuffer (thumbnailCanvasWithImage img title)))
                             (record (EvLoadImage gradientImagePath) wb))).
  { intros wa wb urla urlb wa' wb' Hasset Ha Hb.
    pose proof (loadImage_outcome gradientImagePath wa wb Hasset) as Hsame.
    destruct (loadImage gradientImagePath wa) as [[imga|ea] wa0] eqn:Hla;
      destruct (loadImage gradientImagePath wb) as [[imgb|eb] wb0] eqn:Hlb;
      cbn [fst] in Hsame; try discriminate Hsame.
    - inversion Hsame; subst imgb.
      rewrite (generateThumbnailWithImage_loaded _ _ _ _ Hla) in Ha.
      rewrite (generateThumbnailWithImage_loaded _ _ _ _ Hlb) in Hb.
      cbv zeta in Ha, Hb.
      destruct (write_error (files wa) _ _); [discriminate Ha|].
      destruct (write_error (files wb) _ _); [discriminate Hb|].
      inversion Ha; inversion Hb; subst. exists imga. auto.
    - rewrite (generateThumbnailWithImage_not_loaded _ _ _ _ Hla) in Ha.
      discriminate Ha. }
  split; [|split; [|split]].
  - intros url1 url2 w1' w2'. rewrite !generateThumbnail_run. cbv zeta.
    destruct (write_error (files w1) _ _); [discriminate|].
    destruct (write_error (files w2) _ _); [discriminate|].
    intros H1 H2; inversion H1; inversion H2; subst.
    cbn [files store record]. rewrite !lookup_insert_eq. auto.
  - intros url1 url2 w1' w2' Hasset H1 H2.
    destruct (Himg _ _ _ _ _ _ Hasset H1 H2) as (img & -> & -> & ->).
    split; [reflexivity|]. eexists.
    cbn [files store record]. rewrite !lookup_insert_eq. auto.
  - intros url1 url2 w1' w1''. rewrite !generateThumbnail_run. cbv zeta.
    destruct (write_error (files w1) _ _); [discriminate|].
    intros H1; inversion H1; subst. cbn [files store record].
    destruct (write_error _ _ _); [discriminate|].
    intros H2; inversion H2; subst. cbn [files store record].
    split; [reflexivity | apply insert_insert_eq].
  - intros url1 url2 w1' w1'' H1 Hasset H2.
    destruct (Himg _ _ _ _ _ _ (eq_sym Hasset) H1 H2) as (img & -> & E1 & ->).
    split; [reflexivity|]. rewrite E1 at 2. rewrite E1.
    cbn [files store record]. apply insert_insert_eq.
Qed.

(** C1, at the title ["Hello World"]: [generateThumbnail] attempts to
    write [public/thumbnails/Hello World.png] and, when it resolves,
    returns ["/thumbnails/Hello World.png"]; the sanitized name is
    ["hello_world"], which is what [generateThumbnailWithImage] uses. *)
Theorem generateThumbnail_keeps_raw_title (w : world) :
  io_log (snd (generateThumbnail "Hello World" w))
  = io_log w
    ++ [EvWriteFile (path_join [cwd; "public"; "thumbnails"; "Hello World.png"])
          (toBuffer (thumbnailCanvas "Hello World"))]
  /\ (fst (generateThumbnail "Hello World" w)
      = Resolved "/thumbnails/Hello World.png"
      \/ exists e, fst (generateThumbnail "Hello World" w) = Rejected e)
  /\ sanitize "Hello World" = "hello_world"
  /\ outputPathWithImage "Hello World"
     = path_join [cwd; "public"; "thumbnails"; "hello_world.png"].
Proof.
  rewrite generateThumbnail_run. cbv zeta.
  destruct (write_error _ _ _) as [e|]; cbn [fst snd io_log record store].
  - repeat split. right. exists e. reflexivity.
  - repeat split. left. reflexivity.
Qed.

(** ** Lines as blocks of words *)

Lemma join_snoc (b : list string) (w : string) :
  b <> [] -> join " " (b ++ [w]) = join " " b +:+ " " +:+ w.
Proof.
  unfold join. induction b as [|x b IH]; intros Hb; [contradiction|].
  destruct b as [|y b]; [reflexivity|].
  cbn [app] in *. rewrite !concat_cons_cons, IH by discriminate.
  rewrite !string_app_assoc. reflexivity.
Qed.

(** Started on the join of a non-empty block of words, the filling
    cuts the block and the remaining words into consecutive non-empty
    blocks and joins each one with spaces. *)
Lemma spec_fill_blocks (m : string -> Q) (maxw : Z) (ws : list string) :
  forall b : list string,
    b <> [] ->
    exists blocks : list (list string),
      concat blocks = b ++ ws
      /\ Forall (fun blk => blk <> []) blocks
      /\ spec_fill m maxw (join " " b) ws = List.map (join " ") blocks.
Proof.
  induction ws as [|w ws IH]; intros b Hb.
  - exists [b]. cbn. rewrite !app_nil_r. repeat split.
    constructor; [exact Hb | constructor].
  - cbn [spec_fill]. destruct (Qltb _ _).
    + rewrite <- join_snoc by exact Hb.
      destruct (IH (b ++ [w])) as (blocks & Hc & Hne & Hf).
      { intros E. apply app_eq_nil in E. destruct E; discriminate. }
      exists blocks. rewrite <- app_assoc in Hc. auto.
    + destruct (IH [w]) as (blocks & Hc & Hne & Hf); [discriminate|].
      exists (b :: blocks). cbn [concat List.map]. rewrite Hc.
      repeat split; [constructor; assumption|].
      f_equal. exact Hf.
Qed.

(** X5: the lines are the words of the title, cut into consecutive
    non-empty blocks, each block joined by single spaces: a line break
    falls between two words and no word is dropped, repeated or moved. *)
Theorem lines_are_word_blocks (gradientImage : image) (title : string) :
  exists blocks : list (list string),
    concat blocks = split_space title
    /\ Forall (fun blk => blk <> []) blocks
    /\ thumbnailLines title = List.map (fun blk => Some (join " " blk)) blocks
    /\ thumbnailLinesWithImage gradientImage title
       = List.map (fun blk => Some (join " " blk)) blocks.
Proof.
  unfold thumbnailLines, thumbnailLinesWithImage. rewrite !wrapText_spec.
  unfold spec_greedy_lines, split_space. rewrite split_by_cons.
  set (w := fst (split_pieces is_space title)).
  set (ws := snd (split_pieces is_space title)).
  destruct (spec_fill_blocks (measureText "bold 40px Arial") maxTextWidth ws [w])
    as (blocks & Hc & Hne & Hf); [discriminate|].
  exists blocks. split; [exact Hc|]. split; [exact Hne|].
  change (measure gradientCtx) with (measureText "bold 40px Arial").
  change (measure (imageCtx gradientImage)) with (measureText "bold 40px Arial").
  change (join " " [w]) with w in Hf. rewrite Hf.
  rewrite <- list_fmap_compose. split; reflexivity.
Qed.

Lemma spec_fill_length (m : string -> Q) (maxw : Z) (ws : list string) :
  forall cur,
    (1 <= length (spec_fill m maxw cur ws) <= S (length ws))%nat.
Proof.
  induction ws as [|w ws IH]; intros cur; cbn [spec_fill length]; [lia|].
  destruct (Qltb _ _); cbn [length].
  - specialize (IH (cur +:+ " " +:+ w)). lia.
  - specialize (IH w). lia.
Qed.

(** X6: there is at least one line and at most one line a word, and
    each renderer issues exactly one [fillText] call a line. *)
Theorem line_count_bounds (gradientImage : image) (title : string) :
  (1 <= length (thumbnailLines title) <= length (split_space title))%nat
  /\ length (text_ops (ctx (thumbnailCanvas title)))
     = length (thumbnailLines title)
  /\ length (text_ops (ctx (thumbnailCanvasWithImage gradientImage title)))
     = length (thumbnailLinesWithImage gradientImage title)
  /\ length (thumbnailLinesWithImage gradientImage title)
     = length (thumbnailLines title).
Proof.
  assert (Hlines : thumbnailLines title
                   = thumbnailLinesWithImage gradientImage title)
    by (apply wrapText_ext; reflexivity).
  rewrite <- Hlines. unfold text_ops.
  rewrite thumbnailCanvas_ops, thumbnailCanvasWithImage_ops, <- Hlines.
  cbn [List.filter is_text]. rewrite !text_ops_spec_draw_calls.
  unfold spec_draw_calls. rewrite !length_imap.
  repeat split; try reflexivity.
  all: unfold thumbnailLines; rewrite wrapText_spec, length_fmap;
    unfold spec_greedy_lines, split_space; rewrite split_by_cons;
    cbn [length];
    pose proof (spec_fill_length (measure gradientCtx) maxTextWidth
                  (snd (split_pieces is_space title))
                  (fst (split_pieces is_space title))); lia.
Qed.

(** ** Where the lines break *)

Lemma append_empty_r (s : string) : s +:+ "" = s.
Proof.
  induction s as [|c s IH]; [reflexivity|].
  rewrite append_String, IH. reflexivity.
Qed.

(** The pieces of a split hold no separator. *)
Lemma split_pieces_no_sep (is_sep : ascii -> bool) (s : string) :
  Forall (fun w => Forall (fun c => is_sep c = false) (list_ascii_of_string w))
         (split_by is_sep s).
Proof.
  unfold split_by. induction s as [|c s IH]; cbn [split_pieces].
  - repeat constructor.
  - destruct (split_pieces is_sep s) as [w ws].
    destruct (is_sep c) eqn:Hc.
    + constructor; [constructor | exact IH].
    + apply Forall_cons in IH. destruct IH as [Hw Hws].
      constructor; [|exact Hws].
      cbn [list_ascii_of_string]. constructor; assumption.
Qed.

(** A string without separator is its own and only piece. *)
Lemma split_pieces_whole (is_sep : ascii -> bool) (s : string) :
  Forall (fun c => is_sep c = false) (list_ascii_of_string s) ->
  split_pieces is_sep s = (s, []).
Proof.
  induction s as [|c s IH]; intros Hs; [reflexivity|].
  cbn [list_ascii_of_string] in Hs. apply Forall_cons in Hs.
  destruct Hs as [Hc Hs]. cbn [split_pieces]. rewrite (IH Hs), Hc.
  reflexivity.
Qed.

(** The first piece of a string that starts with a separator-free word. *)
Lemma first_piece_app (is_sep : ascii -> bool) (w rest : string) :
  Forall (fun c => is_sep c = false) (list_ascii_of_string w) ->
  fst (split_pieces is_sep (w +:+ rest))
  = w +:+ fst (split_pieces is_sep rest).
Proof.
  induction w as [|c w IH]; intros Hw; [reflexivity|].
  cbn [list_ascii_of_string] in Hw. apply Forall_cons in Hw.
  destruct Hw as [Hc Hw]. rewrite !append_String. cbn [split_pieces].
  specialize (IH Hw).
  destruct (split_pieces is_sep (w +:+ rest)) as [a b]. cbn [fst] in IH.
  rewrite Hc. cbn [fst]. now rewrite IH.
Qed.

(** The first line of a filling starts with the line in progress,
    followed by nothing or by a space. *)
Lemma spec_fill_head (m : string -> Q) (maxw : Z) (ws : list string) :
  forall cur, exists suffix tl,
    spec_fill m maxw cur ws = (cur +:+ suffix) :: tl
    /\ (suffix = "" \/ exists r, suffix = String " " r).
Proof.
  induction ws as [|w ws IH]; intros cur; cbn [spec_fill].
  - exists "", []. rewrite append_empty_r. auto.
  - destruct (Qltb _ _).
    + destruct (IH (cur +:+ " " +:+ w)) as (suffix & tl & -> & _).
      exists (" " +:+ w +:+ suffix), tl.
      rewrite !string_app_assoc. split; [reflexivity|].
      right. exists (w +:+ suffix). reflexivity.
    + exists "", (spec_fill m maxw w ws). rewrite append_empty_r. auto.
Qed.

(** Between two consecutive lines of a filling, the first word of the
    second one did not fit at the end of the first one. *)
Lemma spec_fill_breaks (m : string -> Q) (maxw : Z) (ws : list string) :
  Forall (fun w => Forall (fun c => is_space c = false)
                     (list_ascii_of_string w)) ws ->
  forall (cur : string) (i : nat) (l l' : string),
    spec_fill m maxw cur ws !! i = Some l ->
    spec_fill m maxw cur ws !! S i = Some l' ->
    exists w, split_space l' !! 0%nat = Some w
              /\ Qltb (m (l +:+ " " +:+ w)) (inject_Z maxw) = false.
Proof.
  induction ws as [|w ws IH]; intros Hws cur i l l' Hl Hl';
    cbn [spec_fill] in Hl, Hl'.
  - destruct i; discriminate Hl'.
  - apply Forall_cons in Hws. destruct Hws as [Hw Hws].
    destruct (Qltb (m (cur +:+ " " +:+ w)) (inject_Z maxw)) eqn:Hfit.
    + exact (IH Hws _ _ _ _ Hl Hl').
    + destruct i as [|i].
      * cbn in Hl. inversion Hl; subst l. cbn in Hl'.
        destruct (spec_fill_head m maxw ws w) as (suffix & tl & E & Hs).
        rewrite E in Hl'. cbn in Hl'. inversion Hl'; subst l'.
        exists w. split; [|exact Hfit].
        unfold split_space. rewrite split_by_cons. cbn [lookup list_lookup].
        rewrite (first_piece_app is_space w suffix Hw). f_equal.
        destruct Hs as [-> | [r ->]]; cbn [split_pieces is_space Ascii.eqb].
        -- apply append_empty_r.
        -- destruct (split_pieces is_space r). apply append_empty_r.
      * exact (IH Hws _ _ _ _ Hl Hl').
Qed.

(** X7: when a line is followed by another one, the first word of the
    following line, appended to the line after a space, measures 760
    pixels or more: the lines are broken only where the next word does
    not fit. *)
Theorem break_only_when_word_does_not_fit (gradientImage : image)
  (title : string) (lines : list (option string)) (i : nat) (l l' : string) :
  lines = thumbnailLines title
  \/ lines = thumbnailLinesWithImage gradientImage title ->
  lines !! i = Some (Some l) ->
  lines !! S i = Some (Some l') ->
  exists w, split_space l' !! 0%nat = Some w
            /\ (760 <= measureText "bold 40px Arial" (l +:+ " " +:+ w))%Q.
Proof.
  intros Hlines Hl Hl'.
  assert (E : lines = Some <$> spec_greedy_lines is_space
                                 (measureText "bold 40px Arial") maxTextWidth
                                 title).
  { destruct Hlines as [-> | ->];
      [unfold thumbnailLines | unfold thumbnailLinesWithImage];
      apply wrapText_spec. }
  subst lines. rewrite list_lookup_fmap in Hl, Hl'.
  unfold spec_greedy_lines in Hl, Hl'.
  pose proof (split_pieces_no_sep is_space title) as Hws.
  rewrite split_by_cons in Hl, Hl', Hws.
  apply Forall_cons in Hws. destruct Hws as [_ Hws].
  destruct (spec_fill _ _ _ _ !! i) as [x|] eqn:Hx; [|discriminate Hl].
  destruct (spec_fill _ _ _ _ !! S i) as [x'|] eqn:Hx'; [|discriminate Hl'].
  cbn in Hl, Hl'. inversion Hl; inversion Hl'; subst x x'.
  destruct (spec_fill_breaks _ _ _ Hws _ _ _ _ Hx Hx') as (w & Hw & Hno).
  exists w. split; [exact Hw|].
  apply Qnot_lt_le. intros Hlt. apply Qltb_lt in Hlt.
  change (inject_Z maxTextWidth) with (760 : Q) in Hno.
  rewrite Hlt in Hno. discriminate.
Qed.

(** X9: a title without a space is one line, the title itself, whatever
    it measures. *)
Theorem title_without_space_is_one_line (gradientImage : image)
  (title : string) :
  Forall (fun c => c <> " "%char) (list_ascii_of_string title) ->
  thumbnailLines title = [Some title]
  /\ thumbnailLinesWithImage gradientImage title = [Some title].
Proof.
  intros Hns.
  assert (Hp : split_pieces is_space title = (title, [])).
  { apply split_pieces_whole. eapply Forall_impl; [exact Hns|].
    intros c Hc. unfold is_space. apply Ascii.eqb_neq. exact Hc. }
  unfold thumbnailLines, thumbnailLinesWithImage, wrapText, split_space,
    split_by.
  rewrite Hp. split; reflexivity.
Qed.

(** ** The vertical layout *)

Lemma omap_imap_some {A B C : Type} (f : B -> option C) (l : list A) :
  forall (g : nat -> A -> B) (h : nat -> C),
    (forall i x, f (g i x) = Some (h i)) ->
    omap f (imap g l) = h <$> seq 0 (length l).
Proof.
  induction l as [|a l IH]; intros g h Hfg; [reflexivity|].
  rewrite imap_cons. cbn [omap list_omap length seq fmap list_fmap].
  rewrite Hfg. f_equal.
  rewrite (IH (g ∘ S) (h ∘ S)) by (intros i x; apply Hfg).
  rewrite <- fmap_S_seq, <- list_fmap_compose. reflexivity.
Qed.

(** Line [i] of [n] is drawn at [225 - 25 n + 50 i]. *)
Lemma spec_draw_calls_ys (lines : list (option string)) :
  omap (fun op : drawop image =>
          match op with FillText _ _ y _ => Some y | _ => None end)
       (spec_draw_calls lines)
  = (fun i => 225 - 25 * Z.of_nat (length lines) + 50 * Z.of_nat i)
      <$> seq 0 (length lines).
Proof.
  unfold spec_draw_calls. apply omap_imap_some.
  intros i _. f_equal. unfold spec_line_y.
  change (50 / 2) with 25.
  rewrite <- (Z.div_unique_exact (400 - Z.of_nat (length lines) * 50) 2
                (200 - 25 * Z.of_nat (length lines))) by lia.
  lia.
Qed.

Lemma thumbnail_line_ys (gradientImage : image) (title : string) :
  line_ys (ctx (thumbnailCanvas title))
  = (fun i => 225 - 25 * Z.of_nat (length (thumbnailLines title))
              + 50 * Z.of_nat i)
      <$> seq 0 (length (thumbnailLines title))
  /\ line_ys (ctx (thumbnailCanvasWithImage gradientImage title))
     = line_ys (ctx (thumbnailCanvas title)).
Proof.
  assert (Hlines : thumbnailLines title
                   = thumbnailLinesWithImage gradientImage title)
    by (apply wrapText_ext; reflexivity).
  unfold line_ys.
  rewrite thumbnailCanvas_ops, thumbnailCanvasWithImage_ops, <- Hlines.
  cbn [omap list_omap]. rewrite spec_draw_calls_ys. split; reflexivity.
Qed.

(** X10: the text block is centred vertically: the positions of line [i]
    from the top and of line [i] from the bottom add up to the canvas
    height, so the margin above the first line equals the margin below
    the last one. *)
Theorem text_block_centered (gradientImage : image) (title : string) :
  Forall2 (fun y y' => y + y' = canvasHeight)
    (line_ys (ctx (thumbnailCanvas title)))
    (reverse (line_ys (ctx (thumbnailCanvas title))))
  /\ Forall2 (fun y y' => y + y' = canvasHeight)
       (line_ys (ctx (thumbnailCanvasWithImage gradientImage title)))
       (reverse (line_ys (ctx (thumbnailCanvasWithImage gradientImage title)))).
Proof.
  destruct (thumbnail_line_ys gradientImage title) as [Hys ->].
  rewrite Hys. set (n := length (thumbnailLines title)).
  assert (H : Forall2 (fun y y' => y + y' = canvasHeight)
                ((fun i => 225 - 25 * Z.of_nat n + 50 * Z.of_nat i)
                   <$> seq 0 n)
                (reverse ((fun i => 225 - 25 * Z.of_nat n + 50 * Z.of_nat i)
                            <$> seq 0 n))).
  { apply Forall2_same_length_lookup_2; [now rewrite length_reverse|].
    intros i y y' Hy Hy'.
    apply reverse_lookup_Some in Hy'. destruct Hy' as [Hy' Hi].
    rewrite length_fmap, length_seq in Hy', Hi.
    rewrite list_lookup_fmap in Hy, Hy'.
    rewrite lookup_seq_lt in Hy by exact Hi.
    rewrite lookup_seq_lt in Hy' by lia.
    cbn in Hy, Hy'. inversion Hy; inversion Hy'; subst.
    unfold canvasHeight. lia. }
  split; exact H.
Qed.

(** X11: every line lies within the canvas (its box of [lineHeight]
    pixels around the [middle] baseline stays between 0 and the canvas
    height) exactly when there are at most 8 lines; from 9 lines on, the
    text is drawn beyond the top and the bottom edge. *)
Theorem text_within_canvas_iff (gradientImage : image) (title : string) :
  ((length (thumbnailLines title) <= 8)%nat
   <-> Forall (fun y => 0 <= y - lineHeight / 2
                        /\ y + lineHeight / 2 <= canvasHeight)
         (line_ys (ctx (thumbnailCanvas title))))
  /\ ((length (thumbnailLinesWithImage gradientImage title) <= 8)%nat
      <-> Forall (fun y => 0 <= y - lineHeight / 2
                           /\ y + lineHeight / 2 <= canvasHeight)
            (line_ys (ctx (thumbnailCanvasWithImage gradientImage title)))).
Proof.
  assert (Hlines : thumbnailLines title
                   = thumbnailLinesWithImage gradientImage title)
    by (apply wrapText_ext; reflexivity).
  destruct (thumbnail_line_ys gradientImage title) as [Hys ->].
  rewrite <- Hlines, Hys.
  assert (Hn : (1 <= length (thumbnailLines title))%nat).
  { unfold thumbnailLines. rewrite wrapText_spec, length_fmap.
    unfold spec_greedy_lines, split_space. rewrite split_by_cons.
    apply spec_fill_length. }
  set (n := length (thumbnailLines title)) in *.
  assert (H : (n <= 8)%nat
              <-> Forall (fun y => 0 <= y - lineHeight / 2
                                   /\ y + lineHeight / 2 <= canvasHeight)
                    ((fun i => 225 - 25 * Z.of_nat n + 50 * Z.of_nat i)
                       <$> seq 0 n)).
  { unfold lineHeight, canvasHeight. change (50 / 2) with 25. split.
    - intros Hle. apply Forall_fmap, Forall_forall. intros i Hi.
      apply elem_of_seq in Hi. unfold compose. lia.
    - intros Hall. rewrite Forall_fmap, Forall_forall in Hall.
      assert (Hin : 0%nat ∈ seq 0 n) by (apply elem_of_seq; lia).
      specialize (Hall 0%nat Hin). unfold compose in Hall. lia. }
  split; exact H.
Qed.

(** ** What a call leaves in the file store *)

(** X12: apart from its output path, a call leaves every file as it was,
    whether it resolves or rejects. *)
Theorem render_touches_only_output (title : string) (w : world) :
  delete (outputPath title) (files (snd (generateThumbnail title w)))
  = delete (outputPath title) (files w)
  /\ delete (outputPathWithImage title)
       (files (snd (generateThumbnailWithImage title w)))
     = delete (outputPathWithImage title) (files w).
Proof.
  split.
  - rewrite generateThumbnail_run. cbv zeta.
    destruct (write_error _ _ _); cbn [snd files store record];
      [reflexivity | apply delete_insert_eq].
  - destruct (loadImage gradientImagePath w) as [[img|e] w0] eqn:Hl.
    + rewrite (generateThumbnailWithImage_loaded _ _ _ _ Hl). cbv zeta.
      destruct (write_error _ _ _); cbn [snd files store record];
        [reflexivity | apply delete_insert_eq].
    + rewrite (generateThumbnailWithImage_not_loaded _ _ _ _ Hl).
      reflexivity.
Qed.

Lemma string_length_append (a b : string) :
  String.length (a +:+ b) = (String.length a + String.length b)%nat.
Proof.
  induction a as [|c a IH]; [reflexivity|].
  rewrite append_String. cbn [String.length]. now rewrite IH.
Qed.

Lemma append_inj_r (s : string) :
  forall a b : string, a +:+ s = b +:+ s -> a = b.
Proof.
  induction a as [|x a IH]; intros [|y b] E.
  - reflexivity.
  - apply (f_equal String.length) in E.
    rewrite !string_length_append in E. cbn [String.length] in E. lia.
  - apply (f_equal String.length) in E.
    rewrite !string_length_append in E. cbn [String.length] in E. lia.
  - rewrite !append_String in E. inversion E; subst. f_equal. now apply IH.
Qed.

(** X4: [generateThumbnail] returns different URLs for different titles:
    two calls that resolve to the same URL were made for the same
    title. *)
Theorem generateThumbnail_url_injective (title1 title2 url : string)
  (w1 w2 w1' w2' : world) :
  generateThumbnail title1 w1 = (Resolved url, w1') ->
  generateThumbnail title2 w2 = (Resolved url, w2') ->
  title1 = title2.
Proof.
  rewrite !generateThumbnail_run. cbv zeta.
  destruct (write_error (files w1) _ _); [discriminate|].
  destruct (write_error (files w2) _ _); [discriminate|].
  intros H1 H2. injection H1 as Hu1 _. injection H2 as Hu2 _.
  rewrite <- Hu2 in Hu1. apply String.app_inj in Hu1.
  apply (append_inj_r ".png"). exact Hu1.
Qed.

(** X3: two titles with the same sanitized name share one file: when
    [generateThumbnailWithImage] resolves for the first and then for
    the second, both calls return the same URL and the file then holds
    the picture of the second title. *)
Theorem colliding_titles_share_file (title1 title2 url1 url2 : string)
  (w w1 w2 : world) :
  sanitize title1 = sanitize title2 ->
  generateThumbnailWithImage title1 w = (Resolved url1, w1) ->
  generateThumbnailWithImage title2 w1 = (Resolved url2, w2) ->
  url2 = url1
  /\ exists gradientImage,
      fst (loadImage gradientImagePath w1) = Resolved gradientImage
      /\ files w2 !! outputPathWithImage title1
         = Some (toBuffer (thumbnailCanvasWithImage gradientImage title2)).
Proof.
  intros Hsan H1 H2.
  destruct (loadImage gradientImagePath w) as [[img|e] w0] eqn:Hl;
    [|rewrite (generateThumbnailWithImage_not_loaded _ _ _ _ Hl) in H1;
      discriminate H1].
  rewrite (generateThumbnailWithImage_loaded _ _ _ _ Hl) in H1.
  cbv zeta in H1.
  destruct (write_error (files w) _ _); [discriminate H1|].
  injection H1 as Hu1 Hw1.
  destruct (loadImage gradientImagePath w1) as [[img'|e'] w0'] eqn:Hl';
    [|rewrite (generateThumbnailWithImage_not_loaded _ _ _ _ Hl') in H2;
      discriminate H2].
  rewrite (generateThumbnailWithImage_loaded _ _ _ _ Hl') in H2.
  cbv zeta in H2.
  destruct (write_error (files w1) _ _); [discriminate H2|].
  injection H2 as Hu2 Hw2. subst url1 url2 w2.
  split; [now rewrite Hsan|].
  exists img'. split; [reflexivity|].
  unfold outputPathWithImage. rewrite Hsan.
  cbn [files store record]. apply lookup_insert_eq.
Qed.

(** ** Titles that fit on one line *)

(** The filling of a block and the words after it is the single line of
    all of them exactly when, word after word, each widened line fits. *)
Lemma spec_fill_single (m : string -> Q) (maxw : Z) (ws : list string) :
  forall b : list string,
    b <> [] ->
    spec_fill m maxw (join " " b) ws = [join " " (b ++ ws)]
    <-> forall k, (1 <= k <= length ws)%nat ->
                  Qltb (m (join " " (b ++ take k ws))) (inject_Z maxw) = true.
Proof.
  induction ws as [|w ws IH]; intros b Hb.
  - cbn [spec_fill length]. rewrite app_nil_r. split; [lia | reflexivity].
  - assert (Hbw : b ++ [w] <> []).
    { intros E. apply app_eq_nil in E. destruct E; discriminate. }
    cbn [spec_fill]. rewrite <- (join_snoc b w Hb).
    destruct (Qltb (m (join " " (b ++ [w]))) (inject_Z maxw)) eqn:Hfit.
    + replace (b ++ w :: ws) with ((b ++ [w]) ++ ws)
        by (rewrite <- app_assoc; reflexivity).
      rewrite (IH (b ++ [w]) Hbw). split.
      * intros H k Hk. destruct k as [|[|k]]; [lia | exact Hfit |].
        change (take (S (S k)) (w :: ws)) with (w :: take (S k) ws). replace (b ++ w :: take (S k) ws)
          with ((b ++ [w]) ++ take (S k) ws)
          by (rewrite <- app_assoc; reflexivity).
        apply H. cbn [length] in Hk. lia.
      * intros H k Hk. specialize (H (S k)).
        change (take (S k) (w :: ws)) with (w :: take k ws) in H.
        cbn [length] in H. replace (b ++ w :: take k ws) with ((b ++ [w]) ++ take k ws) in H
          by (rewrite <- app_assoc; reflexivity).
        apply H. lia.
    + split.
      * intros E. injection E as _ E'.
        now apply spec_fill_nonempty in E'.
      * intros H. specialize (H 1%nat).
        change (take 1 (w :: ws)) with [w] in H.
        rewrite Hfit in H. discriminate H. cbn [length]. lia.
Qed.

(** X8: the title is drawn as one line, the title itself, exactly when
    every group of its first [k] words, for [k] from 2 to the number of
    words, joined by spaces, measures strictly below 760 pixels. *)
Theorem one_line_iff_prefixes_fit (gradientImage : image) (title : string) :
  (thumbnailLines title = [Some title]
   <-> forall k, (2 <= k <= length (split_space title))%nat ->
         (measureText "bold 40px Arial"
            (join " " (take k (split_space title))) < 760)%Q)
  /\ (thumbnailLinesWithImage gradientImage title = [Some title]
      <-> forall k, (2 <= k <= length (split_space title))%nat ->
            (measureText "bold 40px Arial"
               (join " " (take k (split_space title))) < 760)%Q).
Proof.
  assert (Hlines : thumbnailLines title
                   = thumbnailLinesWithImage gradientImage title)
    by (apply wrapText_ext; reflexivity).
  rewrite <- Hlines.
  assert (H : thumbnailLines title = [Some title]
              <-> forall k, (2 <= k <= length (split_space title))%nat ->
                    (measureText "bold 40px Arial"
                       (join " " (take k (split_space title))) < 760)%Q).
  { unfold thumbnailLines. rewrite wrapText_spec.
    pose proof (join_split_space title) as Hjoin.
    unfold spec_greedy_lines, split_space in *.
    rewrite split_by_cons in *.
    set (w := fst (split_pieces is_space title)) in *.
    set (ws := snd (split_pieces is_space title)) in *.
    pose proof (spec_fill_single (measureText "bold 40px Arial") maxTextWidth
                  ws [w] ltac:(discriminate)) as Hs.
    change (join " " [w]) with w in Hs.
    change ([w] ++ ws) with (w :: ws) in Hs. rewrite Hjoin in Hs.
    change (measure gradientCtx) with (measureText "bold 40px Arial").
    split.
    - intros E k Hk.
      destruct (spec_fill (measureText "bold 40px Arial") maxTextWidth w ws)
        as [|l [|l' ls]] eqn:Hf; try discriminate E.
      cbn in E. inversion E; subst l.
      destruct Hs as [Hs _]. specialize (Hs eq_refl).
      destruct k as [|k]; [lia|].
      change (take (S k) (w :: ws)) with ([w] ++ take k ws).
      cbn [length] in Hk. apply Qltb_lt. apply (Hs k). lia.
    - intros Hfit. destruct Hs as [_ Hs]. rewrite Hs; [reflexivity|].
      intros k Hk. apply Qltb_lt.
      change ([w] ++ take k ws) with (take (S k) (w :: ws)).
      apply (Hfit (S k)). cbn [length]. lia. }
  split; exact H.
Qed.

(** ** The I/O calls of a render *)

(** X13: [generateThumbnail] makes one I/O call, the write of its output
    file; [generateThumbnailWithImage] first loads the gradient image
    and then makes at most one write, of its output file, and none when
    the image did not load.  The log of earlier calls is kept. *)
Theorem render_io_calls (title : string) (w : world) :
  io_log (snd (generateThumbnail title w))
  = io_log w ++ [EvWriteFile (outputPath title)
                   (toBuffer (thumbnailCanvas title))]
  /\ (exists writes,
         io_log (snd (generateThumbnailWithImage title w))
         = io_log w ++ EvLoadImage gradientImagePath :: writes
         /\ match fst (loadImage gradientImagePath w) with
            | Resolved gradientImage =>
                writes = [EvWriteFile (outputPathWithImage title)
                            (toBuffer (thumbnailCanvasWithImage
                                         gradientImage title))]
            | Rejected _ => writes = []
            end).
Proof.
  split.
  - rewrite generateThumbnail_run. cbv zeta.
    destruct (write_error _ _ _); reflexivity.
  - destruct (loadImage gradientImagePath w) as [[img|e] w0] eqn:Hl.
    + rewrite (generateThumbnailWithImage_loaded _ _ _ _ Hl). cbv zeta.
      eexists. split; [|cbn [fst]; reflexivity].
      destruct (write_error _ _ _); cbn [snd io_log store record];
        rewrite <- app_assoc; reflexivity.
    + rewrite (generateThumbnailWithImage_not_loaded _ _ _ _ Hl).
      exists []. split; reflexivity.
Qed.

End Renderer.

(** ** The sanitized file name *)

(** [sanitize] works unit by unit: a letter or digit is lower-cased,
    any other code unit becomes an underscore. *)
Lemma sanitize_units (title : string) :
  sanitize title
  = JS.map_units (fun c => if JS.is_alnum c then JS.lower_unit c else "_"%char)
      title.
Proof.
  unfold sanitize, JS.toLowerCase, JS.replace_non_alnum.
  induction title as [|c title IH]; [reflexivity|].
  cbn [JS.map_units]. rewrite IH. f_equal.
  destruct (JS.is_alnum c); reflexivity.
Qed.

(** The sanitized name has the length of the title and is written in
    [a-z], [0-9] and the underscore: it has no separator and no dot. *)
Lemma sanitize_alphabet (title : string) :
  String.length (sanitize title) = String.length title
  /\ Forall (fun c => JS.in_range 97 122 c || JS.in_range 48 57 c
                      || Ascii.eqb c "_" = true)
       (list_ascii_of_string (sanitize title)).
Proof.
  rewrite sanitize_units.
  induction title as [|c title [IHlen IHall]]; [split; [reflexivity | constructor]|].
  cbn [JS.map_units String.length list_ascii_of_string].
  split; [now rewrite IHlen|].
  constructor; [|exact IHall].
  destruct c as [[] [] [] [] [] [] [] []]; vm_compute; reflexivity.
Qed.

(** ** More on the sanitized file name *)

Lemma map_units_compose (f g : ascii -> ascii) (s : string) :
  JS.map_units f (JS.map_units g s) = JS.map_units (fun c => f (g c)) s.
Proof.
  induction s as [|c s IH]; [reflexivity|].
  cbn [JS.map_units]. now rewrite IH.
Qed.

Lemma map_units_ext (f g : ascii -> ascii) (s : string) :
  (forall c, f c = g c) -> JS.map_units f s = JS.map_units g s.
Proof.
  intros Hfg. induction s as [|c s IH]; [reflexivity|].
  cbn [JS.map_units]. now rewrite Hfg, IH.
Qed.

(** X1: the sanitized name has as many code units as the title, each a
    lower-case letter, a digit or an underscore; it holds no path
    separator, no dot and no NUL, so it is a single path segment. *)
Theorem sanitized_name_is_one_segment (title : string) :
  String.length (sanitize title) = String.length title
  /\ Forall (fun c => (JS.in_range 97 122 c || JS.in_range 48 57 c
                       || Ascii.eqb c "_" = true)
                      /\ c <> "/"%char /\ c <> "\"%char /\ c <> "."%char
                      /\ c <> "000"%char)
       (list_ascii_of_string (sanitize title)).
Proof.
  destruct (sanitize_alphabet title) as [Hlen Hall].
  split; [exact Hlen|].
  eapply Forall_impl; [exact Hall|]. cbn beta.
  intros c Hc. split; [exact Hc|].
  repeat split; intros ->; vm_compute in Hc; discriminate Hc.
Qed.

(** X2: sanitizing is idempotent: a sanitized name is its own
    sanitized name. *)
Theorem sanitize_idempotent (title : string) :
  sanitize (sanitize title) = sanitize title.
Proof.
  rewrite !sanitize_units, map_units_compose.
  apply map_units_ext. intros c.
  destruct c as [[] [] [] [] [] [] [] []]; vm_compute; reflexivity.
Qed.

(** ** Where [generateThumbnail] writes *)

(** C4, at the title ["../x"], with the POSIX [path.join] and the
    working directory [/app]: [generateThumbnail] attempts to write
    [/app/public/x.png], which is not under [/app/public/thumbnails/],
    and when the write succeeds it returns ["/thumbnails/../x.png"] and
    the file is there; [generateThumbnailWithImage] writes
    [/app/public/thumbnails/___x.png] for the same title. *)
Theorem generateThumbnail_escapes_thumbnails {image error : Type}
  (measureText : string -> string -> Q)
  (toBuffer : Canvas.canvas image -> IO.buffer)
  (write_error : gmap string IO.buffer -> string -> IO.buffer -> option error)
  (w : IO.world) :
  IO.io_log (snd (generateThumbnail measureText toBuffer write_error
                    "/app" Path.join "../x" w))
  = IO.io_log w
    ++ [IO.EvWriteFile "/app/public/x.png"
          (toBuffer (thumbnailCanvas measureText "../x"))]
  /\ (fst (generateThumbnail measureText toBuffer write_error
             "/app" Path.join "../x" w)
        = IO.Resolved "/thumbnails/../x.png"
      /\ IO.files (snd (generateThumbnail measureText toBuffer write_error
                          "/app" Path.join "../x" w))
           !! "/app/public/x.png"
         = Some (toBuffer (thumbnailCanvas measureText "../x"))
      \/ exists e,
          fst (generateThumbnail measureText toBuffer write_error
                 "/app" Path.join "../x" w) = IO.Rejected e)
  /\ String.prefix "/app/public/thumbnails/" "/app/public/x.png" = false
  /\ outputPathWithImage "/app" Path.join "../x"
     = "/app/public/thumbnails/___x.png".
Proof.
  rewrite generateThumbnail_run. cbv zeta.
  change (outputPath "/app" Path.join "../x") with "/app/public/x.png".
  destruct (write_error _ _ _) as [e|];
    cbn [fst snd IO.io_log IO.files IO.record IO.store].
  - repeat split. right. exists e. reflexivity.
  - repeat split. left. split; [reflexivity | apply lookup_insert_eq].
Qed.

(** ** The sitemap *)

Section SitemapFacts.
Import Sitemap.
Context {date : Type}.
Variable parse_date : string -> date.
Variable now_home now_blog : date.

Lemma blog_url_not_static (s : string) :
  "https://hamidul-islam.vercel.app/blog/" +:+ s
  <> "https://hamidul-islam.vercel.app"
  /\ "https://hamidul-islam.vercel.app/blog/" +:+ s
     <> "https://hamidul-islam.vercel.app/blog".
Proof.
  split; intros E; apply (f_equal String.length) in E;
    rewrite string_length_append in E; cbn in E; lia.
Qed.

Lemma sitemap_urls (posts : list (post)) :
  List.map url (sitemap parse_date now_home now_blog posts)
  = "https://hamidul-islam.vercel.app"
    :: "https://hamidul-islam.vercel.app/blog"
    :: List.map (fun s => "https://hamidul-islam.vercel.app/blog/" +:+ s)
         (List.map slug (List.filter published posts)).
Proof.
  unfold sitemap, blogUrls, routes. cbn [app List.map url].
  rewrite !List.map_map. reflexivity.
Qed.

(** X14: the sitemap lists the two static routes first and then one entry
    for each published post, in the order of the posts: an entry is in
    the sitemap exactly when it is a static route or the entry of a
    published post, and there are two entries more than published
    posts. *)
Theorem sitemap_lists_published_posts (posts : list post) (e : entry date) :
  (In e (sitemap parse_date now_home now_blog posts)
   <-> In e (routes now_home now_blog)
       \/ exists p, In p posts /\ published p = true
                    /\ e = post_entry parse_date p)
  /\ length (sitemap parse_date now_home now_blog posts)
     = (2 + length (List.filter published posts))%nat
  /\ firstn 2 (sitemap parse_date now_home now_blog posts)
     = routes now_home now_blog.
Proof.
  unfold sitemap, blogUrls. split; [|split].
  - rewrite in_app_iff, in_map_iff. split.
    + intros [Hr | (p & <- & Hp)]; [left; exact Hr|].
      apply filter_In in Hp. right. exists p. tauto.
    + intros [Hr | (p & Hin & Hpub & ->)]; [left; exact Hr|].
      right. exists p. split; [reflexivity|]. apply filter_In. tauto.
  - rewrite length_app, length_map. reflexivity.
  - reflexivity.
Qed.

(** X15: when the published posts have pairwise different slugs, no URL
    occurs twice in the sitemap. *)
Theorem sitemap_urls_distinct (posts : list post) :
  NoDup (List.map slug (List.filter published posts)) ->
  NoDup (List.map url (sitemap parse_date now_home now_blog posts)).
Proof.
  intros Hnd. rewrite sitemap_urls.
  set (slugs := List.map slug (List.filter published posts)) in *.
  assert (Hblog : forall u,
             In u (List.map (fun s => "https://hamidul-islam.vercel.app/blog/"
                                      +:+ s) slugs) ->
             u <> "https://hamidul-islam.vercel.app"
             /\ u <> "https://hamidul-islam.vercel.app/blog").
  { intros u Hu. apply in_map_iff in Hu. destruct Hu as (s & <- & _).
    apply blog_url_not_static. }
  apply NoDup_cons. split.
  - rewrite list_elem_of_In. intros [E | Hin]; [discriminate E|].
    destruct (Hblog _ Hin) as [H _]. now apply H.
  - apply NoDup_cons. split.
    + rewrite list_elem_of_In. intros Hin.
      destruct (Hblog _ Hin) as [_ H]. now apply H.
    + apply (NoDup_fmap_2 (fun s => "https://hamidul-islam.vercel.app/blog/"
                                    +:+ s)).
      exact Hnd.
Qed.

(** X16: a post that is not published is not reachable from the sitemap:
    unless a published post has the same slug, its URL is the URL of no
    entry. *)
Theorem sitemap_hides_drafts (posts : list post) (p : post) :
  published p = false ->
  (forall q, In q posts -> published q = true -> slug q <> slug p) ->
  ~ In (url (post_entry parse_date p))
       (List.map url (sitemap parse_date now_home now_blog posts)).
Proof.
  intros Hdraft Hslug. rewrite sitemap_urls. cbn [url post_entry In].
  intros [E | [E | Hin]].
  - symmetry in E. now apply blog_url_not_static in E.
  - symmetry in E. now apply blog_url_not_static in E.
  - apply in_map_iff in Hin. destruct Hin as (s & E & Hs).
    apply String.app_inj in E. subst s.
    apply in_map_iff in Hs. destruct Hs as (q & Hq & Hin).
    apply filter_In in Hin. destruct Hin as [Hin Hpub].
    exact (Hslug q Hin Hpub Hq).
Qed.

End SitemapFacts.

(** ** The statements on the concrete environment *)

(** [path.join] drops empty arguments, [.] and doubled slashes, and
    resolves [..]; an absolute path never climbs above the root. *)
Example path_join_normalizes :
  Path.join ["/app"; "public"; "thumbnails"; "hello_world.png"]
  = "/app/public/thumbnails/hello_world.png"
  /\ Path.join ["a//b/./c/.."; ""; "..."] = "a/b/..."
  /\ Path.join ["/.."; "a/"] = "/a/"
  /\ Path.join [".."; "a"] = "../a"
  /\ Path.join [] = ".".
Proof. repeat split; reflexivity. Qed.

(** Where every write succeeds, [generateThumbnail] for the title
    [../gradient-bg] replaces the gradient image of the other renderer
    by its own picture. *)
Example raw_title_overwrites_gradient_image :
  IO.files Demo.world_with_asset !! "/app/public/gradient-bg.png"
  = Some Demo.asset
  /\ generateThumbnail (image := IO.buffer) Demo.fixed_pitch Demo.encode
       Demo.any_write "/app" Path.join "../gradient-bg" Demo.world_with_asset
     = (IO.Resolved "/thumbnails/../gradient-bg.png",
        {| IO.files := {[ "/app/public/gradient-bg.png"
                          := [Byte.x01; Byte.x03] ]};
           IO.io_log := [IO.EvWriteFile "/app/public/gradient-bg.png"
                           [Byte.x01; Byte.x03]] |}).
Proof. split; vm_compute; reflexivity. Qed.

(** [split(' ')] keeps the empty pieces around leading, doubled and
    trailing spaces. *)
Example split_space_pieces :
  JS.split_space " a  b " = [""; "a"; ""; "b"; ""]
  /\ JS.split_space "" = [""].
Proof. split; reflexivity. Qed.

(** Two short words share one line. *)
Example hello_world_one_line :
  thumbnailLines (image := IO.buffer) Demo.fixed_pitch "Hello World"
  = [Some "Hello World"].
Proof. vm_compute. reflexivity. Qed.

(** Twenty times [word]: seven words measure 680 pixels and an eighth
    would make 780, so the lines hold 7, 7 and 6 words. *)
Example twenty_words_three_lines :
  thumbnailLines (image := IO.buffer) Demo.fixed_pitch
    (JS.join " " (repeat "word" 20))
  = [Some "word word word word word word word";
     Some "word word word word word word word";
     Some "word word word word word word"].
Proof. vm_compute. reflexivity. Qed.

(** Titles that differ in punctuation only get the same file name. *)
Example sanitize_collides :
  sanitize "A/B" = "a_b" /\ sanitize "A B" = "a_b"
  /\ sanitize "A/B:C?" = "a_b_c_".
Proof. repeat split; reflexivity. Qed.

(** C2 as stated (words split at white space) fails: the title [a<TAB>b]
    has no space, so the renderer keeps it as the one line [a<TAB>b],
    while the algorithm run on the white-space-separated words [a] and
    [b] produces the line [a b]. *)
Lemma wrap_not_greedy_on_whitespace :
  thumbnailLines (image := IO.buffer) Demo.fixed_pitch Demo.tabbed_title
  = [Some Demo.tabbed_title]
  /\ spec_greedy_lines JS.is_whitespace (Demo.fixed_pitch "bold 40px Arial")
       (800 - 2 * 20) Demo.tabbed_title
     = ["a b"]
  /\ thumbnailLines (image := IO.buffer) Demo.fixed_pitch Demo.tabbed_title
     <> Some <$> spec_greedy_lines JS.is_whitespace
                   (Demo.fixed_pitch "bold 40px Arial") (800 - 2 * 20)
                   Demo.tabbed_title.
Proof.
  split; [vm_compute; reflexivity|].
  split; [vm_compute; reflexivity|].
  vm_compute. discriminate.
Qed.

(** C5 as stated fails: a title that is one word of 39 letters is kept
    as one line, 780 pixels wide in the fixed-pitch font. *)
Lemma long_word_overflows :
  thumbnailLines (image := IO.buffer) Demo.fixed_pitch Demo.long_word
  = [Some Demo.long_word]
  /\ (Demo.fixed_pitch "bold 40px Arial" Demo.long_word == 780)%Q
  /\ ~ Forall (fun line => exists s, line = Some s
                 /\ (Demo.fixed_pitch "bold 40px Arial" s <= 760)%Q)
         (thumbnailLines (image := IO.buffer) Demo.fixed_pitch Demo.long_word).
Proof.
  split; [vm_compute; reflexivity|].
  split; [vm_compute; reflexivity|].
  intros H. apply Forall_cons in H. destruct H as [(s & Hs & Hle) _].
  inversion Hs; subst s. vm_compute in Hle. apply Hle. reflexivity.
Qed.

(** [empty_title_renders] applies: in the concrete environment the
    empty title resolves with both renderers, and the file [.png] of
    the thumbnails directory holds the two drawing calls, the
    background and the blank line. *)
Lemma empty_title_renders_witness :
  generateThumbnail (image := IO.buffer) Demo.fixed_pitch Demo.encode
    Demo.thumbnails_only "/app" Demo.join_slash "" Demo.empty_world
  = (IO.Resolved "/thumbnails/.png",
     {| IO.files := {[ "/app/public/thumbnails/.png"
                       := [Byte.x01; Byte.x03] ]};
        IO.io_log := [IO.EvWriteFile "/app/public/thumbnails/.png"
                        [Byte.x01; Byte.x03]] |})
  /\ generateThumbnailWithImage Demo.fixed_pitch Demo.encode Demo.decode
       Demo.enoent Demo.thumbnails_only "/app" Demo.join_slash ""
       Demo.world_with_asset
     = (IO.Resolved "/thumbnails/.png",
        {| IO.files := <[ "/app/public/thumbnails/.png"
                          := [Byte.x02; Byte.x03] ]>
                         (IO.files Demo.world_with_asset);
           IO.io_log := [IO.EvLoadImage "/app/public/gradient-bg.png";
                         IO.EvWriteFile "/app/public/thumbnails/.png"
                           [Byte.x02; Byte.x03]] |}).
Proof.
  split.
  - destruct (empty_title_renders Demo.fixed_pitch Demo.encode Demo.decode
                Demo.enoent Demo.thumbnails_only "/app" Demo.join_slash
                Demo.asset Demo.empty_world) as (_ & _ & _ & _ & _ & H & _).
    rewrite H by (vm_compute; reflexivity). reflexivity.
  - destruct (empty_title_renders Demo.fixed_pitch Demo.encode Demo.decode
                Demo.enoent Demo.thumbnails_only "/app" Demo.join_slash
                Demo.asset Demo.world_with_asset) as (_ & _ & _ & _ & _ & _ & H).
    rewrite H by (vm_compute; reflexivity). reflexivity.
Defined.

(** [resolved_path_names_written_file] applies: ["A/B:C?"] is written to
    [a_b_c_.png] by the image renderer, and returned under that name. *)
Lemma resolved_path_names_written_file_witness :
  exists w',
    generateThumbnailWithImage Demo.fixed_pitch Demo.encode Demo.decode
      Demo.enoent Demo.thumbnails_only "/app" Demo.join_slash "A/B:C?"
      Demo.world_with_asset
    = (IO.Resolved "/thumbnails/a_b_c_.png", w')
    /\ IO.files w' !! "/app/public/thumbnails/a_b_c_.png"
       = Some [Byte.x02; Byte.x03].
Proof.
  destruct (resolved_path_names_written_file Demo.fixed_pitch Demo.encode
              Demo.decode Demo.enoent Demo.thumbnails_only "/app"
              Demo.join_slash "A/B:C?" Demo.world_with_asset)
    as (_ & _ & Hform & Hruns).
  destruct (Hruns Demo.asset) as [w' Hw'];
    [vm_compute; reflexivity | vm_compute; reflexivity |].
  exists w'. split; [exact Hw'|].
  destruct (Hform _ _ Hw') as (img & Himg & _ & Hfile).
  vm_compute in Himg. inversion Himg; subst img. exact Hfile.
Defined.

(** [io_failure_rejects] applies: without the gradient image the image
    renderer rejects with the error of the missing file, and where the
    thumbnails directory cannot be written [generateThumbnail] rejects
    with the error of the write. *)
Lemma io_failure_rejects_witness :
  generateThumbnailWithImage (image := IO.buffer) Demo.fixed_pitch Demo.encode
    Demo.decode Demo.enoent Demo.thumbnails_only "/app" Demo.join_slash
    "Hello World" Demo.empty_world
  = (IO.Rejected "ENOENT /app/public/gradient-bg.png",
     IO.record (IO.EvLoadImage "/app/public/gradient-bg.png") Demo.empty_world)
  /\ generateThumbnail (image := IO.buffer) Demo.fixed_pitch Demo.encode
       Demo.thumbnails_only "/srv" Demo.join_slash "Hello World"
       Demo.empty_world
     = (IO.Rejected "EACCES /srv/public/thumbnails/Hello World.png",
        IO.record (IO.EvWriteFile "/srv/public/thumbnails/Hello World.png"
                     [Byte.x01; Byte.x03]) Demo.empty_world).
Proof.
  split.
  - destruct (io_failure_rejects Demo.fixed_pitch Demo.encode Demo.decode
                Demo.enoent Demo.thumbnails_only "/app" Demo.join_slash
                "Hello World" Demo.empty_world
                "ENOENT /app/public/gradient-bg.png") as (_ & H & _).
    apply H. vm_compute. reflexivity.
  - destruct (io_failure_rejects Demo.fixed_pitch Demo.encode Demo.decode
                Demo.enoent Demo.thumbnails_only "/srv" Demo.join_slash
                "Hello World" Demo.empty_world
                "EACCES /srv/public/thumbnails/Hello World.png") as (H & _).
    apply H. vm_compute. reflexivity.
Defined.

(** [render_deterministic] applies: a second call in the world the first
    one left resolves to the same path and leaves the files unchanged. *)
Lemma render_deterministic_witness :
  IO.files
    (snd (generateThumbnailWithImage Demo.fixed_pitch Demo.encode Demo.decode
            Demo.enoent Demo.thumbnails_only "/app" Demo.join_slash
            "Same Title"
            (snd (generateThumbnailWithImage Demo.fixed_pitch Demo.encode
                    Demo.decode Demo.enoent Demo.thumbnails_only "/app"
                    Demo.join_slash "Same Title" Demo.world_with_asset))))
  = IO.files
      (snd (generateThumbnailWithImage Demo.fixed_pitch Demo.encode Demo.decode
              Demo.enoent Demo.thumbnails_only "/app" Demo.join_slash
              "Same Title" Demo.world_with_asset)).
Proof.
  destruct (render_deterministic Demo.fixed_pitch Demo.encode Demo.decode
              Demo.enoent Demo.thumbnails_only "/app" Demo.join_slash
              "Same Title" Demo.world_with_asset Demo.world_with_asset)
    as (_ & _ & _ & Hseq).
  apply (Hseq "/thumbnails/same_title.png" "/thumbnails/same_title.png");
    vm_compute; reflexivity.
Defined.

(** [break_only_when_word_does_not_fit] applies: in the title of twenty
    times [word], the first line is followed by a second one, whose
    first word [word] would have made the first line 780 pixels wide. *)
Lemma break_only_when_word_does_not_fit_witness :
  exists w,
    JS.split_space "word word word word word word word" !! 0%nat = Some w
    /\ (760 <= Demo.fixed_pitch "bold 40px Arial"
                 ("word word word word word word word" +:+ " " +:+ w))%Q.
Proof.
  apply (break_only_when_word_does_not_fit Demo.fixed_pitch Demo.asset
           (JS.join " " (repeat "word" 20))
           (thumbnailLines (image := IO.buffer) Demo.fixed_pitch
              (JS.join " " (repeat "word" 20)))
           0%nat).
  - left. reflexivity.
  - vm_compute. reflexivity.
  - vm_compute. reflexivity.
Defined.

(** [title_without_space_is_one_line] applies to a word of 34 letters,
    680 pixels wide, and as well to any longer one. *)
Lemma title_without_space_is_one_line_witness :
  thumbnailLines (image := IO.buffer) Demo.fixed_pitch
    "Supercalifragilisticexpialidocious"
  = [Some "Supercalifragilisticexpialidocious"].
Proof.
  apply (title_without_space_is_one_line Demo.fixed_pitch Demo.asset).
  cbn [list_ascii_of_string]. repeat (constructor; [discriminate|]).
  constructor.
Defined.

(** [generateThumbnail_url_injective] applies: two calls that resolve to
    [/thumbnails/Hello World.png], in different worlds. *)
Lemma generateThumbnail_url_injective_witness :
  generateThumbnail (image := IO.buffer) Demo.fixed_pitch Demo.encode
    Demo.thumbnails_only "/app" Demo.join_slash "Hello World" Demo.empty_world
  = (IO.Resolved "/thumbnails/Hello World.png",
     snd (generateThumbnail (image := IO.buffer) Demo.fixed_pitch Demo.encode
            Demo.thumbnails_only "/app" Demo.join_slash "Hello World"
            Demo.empty_world))
  /\ "Hello World" = "Hello World".
Proof.
  assert (H : generateThumbnail (image := IO.buffer) Demo.fixed_pitch
                Demo.encode Demo.thumbnails_only "/app" Demo.join_slash
                "Hello World" Demo.empty_world
              = (IO.Resolved "/thumbnails/Hello World.png",
                 snd (generateThumbnail (image := IO.buffer) Demo.fixed_pitch
                        Demo.encode Demo.thumbnails_only "/app"
                        Demo.join_slash "Hello World" Demo.empty_world)))
    by (vm_compute; reflexivity).
  split; [exact H|].
  apply (generateThumbnail_url_injective Demo.fixed_pitch Demo.encode
           Demo.thumbnails_only "/app" Demo.join_slash
           "Hello World" "Hello World" "/thumbnails/Hello World.png"
           Demo.empty_world Demo.world_with_asset _
           (snd (generateThumbnail (image := IO.buffer) Demo.fixed_pitch
                   Demo.encode Demo.thumbnails_only "/app" Demo.join_slash
                   "Hello World" Demo.world_with_asset))
           H).
  vm_compute. reflexivity.
Defined.

(** [colliding_titles_share_file] applies: after [A/B] and then [A B],
    the file [a_b.png] holds the picture drawn for [A B]. *)
Lemma colliding_titles_share_file_witness :
  sanitize "A/B" = sanitize "A B"
  /\ IO.files
       (snd (generateThumbnailWithImage Demo.fixed_pitch Demo.encode
               Demo.decode Demo.enoent Demo.thumbnails_only "/app"
               Demo.join_slash "A B"
               (snd (generateThumbnailWithImage Demo.fixed_pitch Demo.encode
                       Demo.decode Demo.enoent Demo.thumbnails_only "/app"
                       Demo.join_slash "A/B" Demo.world_with_asset))))
     !! "/app/public/thumbnails/a_b.png"
     = Some (Demo.encode
               (thumbnailCanvasWithImage Demo.fixed_pitch Demo.asset "A B")).
Proof.
  split; [reflexivity|].
  destruct (colliding_titles_share_file Demo.fixed_pitch Demo.encode
              Demo.decode Demo.enoent Demo.thumbnails_only "/app"
              Demo.join_slash "A/B" "A B"
              "/thumbnails/a_b.png" "/thumbnails/a_b.png"
              Demo.world_with_asset
              (snd (generateThumbnailWithImage Demo.fixed_pitch Demo.encode
                      Demo.decode Demo.enoent Demo.thumbnails_only "/app"
                      Demo.join_slash "A/B" Demo.world_with_asset))
              (snd (generateThumbnailWithImage Demo.fixed_pitch Demo.encode
                      Demo.decode Demo.enoent Demo.thumbnails_only "/app"
                      Demo.join_slash "A B"
                      (snd (generateThumbnailWithImage Demo.fixed_pitch
                              Demo.encode Demo.decode Demo.enoent
                              Demo.thumbnails_only "/app" Demo.join_slash
                              "A/B" Demo.world_with_asset)))))
    as (_ & img & Himg & Hfile);
    [reflexivity | vm_compute; reflexivity | vm_compute; reflexivity |].
  vm_compute in Himg. injection Himg as <-. exact Hfile.
Defined.

(** [sitemap_urls_distinct] applies to the three posts. *)
Lemma sitemap_urls_distinct_witness :
  NoDup (List.map Sitemap.url
           (Sitemap.sitemap (fun d : string => d) "now" "now"
              Sitemap.demo_posts)).
Proof.
  apply sitemap_urls_distinct. cbn [Sitemap.demo_posts List.filter
    Sitemap.published List.map Sitemap.slug].
  apply NoDup_ListNoDup. repeat constructor; cbn; intuition discriminate.
Defined.

(** [sitemap_hides_drafts] applies: the draft among the three posts is
    not listed, while it would be if it were published. *)
Lemma sitemap_hides_drafts_witness :
  ~ In "https://hamidul-islam.vercel.app/blog/draft-notes"
       (List.map Sitemap.url
          (Sitemap.sitemap (fun d : string => d) "now" "now"
             Sitemap.demo_posts)).
Proof.
  apply (sitemap_hides_drafts (fun d : string => d) "now" "now"
           Sitemap.demo_posts
           {| Sitemap.slug := "draft-notes";
              Sitemap.post_date := "2025-02-01";
              Sitemap.published := false |}).
  - reflexivity.
  - intros q Hq Hpub. cbn in Hq.
    destruct Hq as [<- | [<- | [<- | []]]]; cbn in *; discriminate.
Defined.

(** Nine words of 39 letters make nine lines: the first one is drawn at
    [y = 0] and the last one at [y = 400], on the edges of the canvas. *)
Example nine_long_words_overflow :
  line_ys (Canvas.ctx
             (thumbnailCanvas (image := IO.buffer) Demo.fixed_pitch
                (JS.join " " (repeat Demo.long_word 9))))
  = [0; 50; 100; 150; 200; 250; 300; 350; 400].
Proof. vm_compute. reflexivity. Qed.
